(** * Image load orchestration: registry, resolution pipeline, event broadcast

    A shallow embedding of [cornerstone-core/src/imageLoader.ts] and the
    properties of its resolution order, its scheme registry and the events
    it broadcasts.

    The module keeps two pieces of process-wide state ([imageLoaders] and
    [unknownImageLoader]), talks to the cache through three operations, calls
    loaders and attaches a handler pair to the promise of a load object.  All
    of this is threaded through one explicit [State]; a function of the
    module becomes a computation in the monad [M], which either returns a
    value or throws, and always yields the state reached.

    Modelling conventions.
    - [imageLoaders] is a plain object used as a dictionary.  Its
      registrations are a [gmap string _]; the key ["__proto__"] of that map
      stands for the prototype slot of the object, which is where an
      assignment to [imageLoaders['__proto__']] goes.  A read of
      [imageLoaders[scheme]] that finds no registration continues along the
      prototype chain ([registry_read]): [Object.prototype], and before it
      the function a ["__proto__"] registration has put there.  Loaders are
      plain functions, with the properties every function has and no
      others, and the built-in prototypes are as the language defines
      them.
    - The module is strict code, so an assignment the object refuses
      throws.
    - An argument a call site does not pass is [None] on the callee's side.
    - A promise is a reference into the store [promises]; settling it and
      running the queued reactions are the two steps the host takes between
      calls of this module ([settle], [run_jobs]).
    - Loaders and the slice conversion of a volume are functions of their
      arguments, as their TypeScript types say; the ghost trace [calls]
      records every invocation of a collaborator in program order. *)

From stdpp Require Import gmap strings list fin_maps.
From Stdlib Require Import ZArith Lia Ascii.

(** ** String primitives of the host language *)

(** [s.indexOf(c)] for a one-character needle: position of the first
    occurrence, [-1] when there is none. *)
Fixpoint indexOf_from (c : ascii) (s : string) (i : Z) : Z :=
  match s with
  | EmptyString => (-1)%Z
  | String a s' => if decide (a = c) then i else indexOf_from c s' (i + 1)%Z
  end.

Definition indexOf (c : ascii) (s : string) : Z := indexOf_from c s 0%Z.

(** [s.substring(start, end)]: both indices are clamped to [0, length] and
    swapped when [start > end]. *)
Definition clamp_index (len i : Z) : Z := Z.max 0%Z (Z.min i len).

Definition substring (s : string) (start end_ : Z) : string :=
  let len := Z.of_nat (String.length s) in
  let a := clamp_index len start in
  let b := clamp_index len end_ in
  let from := Z.min a b in
  let to := Z.max a b in
  String.substring (Z.to_nat from) (Z.to_nat (to - from)%Z) s.

Definition colon : ascii := ":"%char.

(** Lines 37-38 of [loadImageFromImageLoader]. *)
Definition scheme_of (imageId : string) : string :=
  let colonIndex := indexOf colon imageId in
  substring imageId 0%Z colonIndex.

(** A string without any colon. *)
Fixpoint has_colon (s : string) : bool :=
  match s with
  | EmptyString => false
  | String a s' => if decide (a = colon) then true else has_colon s'
  end.

(** ** Thrown values *)

Inductive Thrown : Type := JsError (message : string).

Definition loadImage_undefined : Thrown :=
  JsError "loadImage: parameter imageId must not be undefined".

Definition loadAndCacheImage_undefined : Thrown :=
  JsError "loadAndCacheImage: parameter imageId must not be undefined".

Definition NoLoaderError : Thrown :=
  JsError "loadImageFromImageLoader: no image loader for imageId".

(** The errors of the engine; their class and text are the engine's (a
    [TypeError] but for the [Function] constructor, which throws a
    [SyntaxError]).  The first is what comes of using an inherited property
    as a loader: reading it throws, or it is not a function, or it is a
    built-in that throws when called this way or returns a value without a
    [promise], on which [.promise.then] throws.  The second is the refusal
    of an assignment to a property that an object of the prototype chain
    holds read-only. *)
Definition InheritedPropertyError (property : string) : Thrown :=
  JsError ("engine error: not an image loader: inherited " +:+ property).

Definition ReadOnlyPropertyError (property : string) : Thrown :=
  JsError ("TypeError: cannot assign to read only property " +:+ property).

(** The string-keyed properties of [Object.prototype]. *)
Definition object_prototype_names : list string :=
  ["__defineGetter__"; "__defineSetter__"; "__lookupGetter__";
   "__lookupSetter__"; "__proto__"; "constructor"; "hasOwnProperty";
   "isPrototypeOf"; "propertyIsEnumerable"; "toLocaleString"; "toString";
   "valueOf"].

(** Those a function adds in front of them, of its own or from
    [Function.prototype], whatever kind of function it is ... *)
Definition function_prototype_names : list string :=
  ["apply"; "bind"; "call"; "constructor"; "length"; "name"; "toString"].

(** ... and those whose reading depends on the function and the engine:
    [prototype] is an object on an ordinary function and absent on an arrow
    function; [arguments] and [caller] are [null] on some functions and
    throw on others. *)
Definition function_kind_dependent_names : list string :=
  ["arguments"; "caller"; "prototype"].

(** The properties a function holds read-only, or behind a setter that
    throws. *)
Definition function_read_only_names : list string :=
  ["arguments"; "caller"; "length"; "name"].

Inductive Completion (A : Type) : Type :=
| Return (a : A)
| Throw (e : Thrown).
Arguments Return {A} a.
Arguments Throw {A} e.

Definition PromiseRef := nat.

(** [{ promise, cancel? }]; [cancel] is an opaque handle this module never
    touches. *)
Record ImageLoadObject : Type := {
  promise : PromiseRef;
  cancel : option nat
}.

Section ImageLoader.

(** The types of [./types] the module only passes around. *)
Context {IImage ErrorValue ImageLoaderOptions : Type}.

Definition ImageLoaderFn : Type :=
  string → option ImageLoaderOptions → ImageLoadObject.

(** *** Promises and events *)

Inductive Settlement : Type :=
| Fulfilled (image : IImage)
| Rejected (error : ErrorValue).

(** The one handler pair this module attaches (lines 54-66); the closure
    captures [imageId]. *)
Inductive Reaction : Type := BroadcastHandlers (imageId : string).

Record PromiseCell : Type := {
  settled : option Settlement;
  reactions : list Reaction
}.

Inductive Event : Type :=
| IMAGE_LOADED (image : IImage)
| IMAGE_LOAD_FAILED (imageId : string) (error : ErrorValue).

(** *** The caching façade *)

Record LoadStatus : Type := { loaded : bool }.

Record ImageVolume : Type := {
  loadStatus : LoadStatus;
  convertToCornerstoneImage : string → Z → ImageLoadObject
}.

Record CachedVolumeInfo : Type := {
  volume : ImageVolume;
  imageIdIndex : Z
}.

(** Modelled from the spec: the cache object of [./cache/cache], of which
    the module uses [getImageLoadObject], [getVolumeContainingImageId] and
    [putImageLoadObject].  It is a store of load objects keyed by identifier
    and a table of the volumes known to contain an identifier; a lookup
    returns what was last put, and how entries are sized or evicted is not
    part of the contract. *)
Record Cache : Type := {
  imageCache : gmap string ImageLoadObject;
  volumeCache : gmap string CachedVolumeInfo
}.

(** *** Ghost trace of collaborator invocations *)

Inductive Call : Type :=
| GetImageLoadObject (imageId : string)
| GetVolumeContainingImageId (imageId : string)
| ConvertToCornerstoneImage (imageId : string) (index : Z)
| PutImageLoadObject (imageId : string) (lo : ImageLoadObject)
| InvokeLoader (scheme imageId : string) (options : option ImageLoaderOptions)
| InvokeUnknownImageLoader (imageId : string)
    (options : option ImageLoaderOptions)
| PromiseThen (p : PromiseRef) (r : Reaction).

Definition is_loader_call (c : Call) : bool :=
  match c with
  | InvokeLoader _ _ _ | InvokeUnknownImageLoader _ _ => true
  | _ => false
  end.

Definition is_scheme_loader_call (c : Call) : bool :=
  match c with
  | InvokeLoader _ _ _ => true
  | _ => false
  end.

Definition is_put_call (c : Call) : bool :=
  match c with
  | PutImageLoadObject _ _ => true
  | _ => false
  end.

(** *** Program state *)

(** [imageLoaders] holds the registrations: the own properties of the
    registry object and, under the key ["__proto__"], the function an
    assignment to [imageLoaders['__proto__']] has made its prototype.
    Besides the state of the module, [State] says how the engine reads a
    kind-dependent property ([function_kind_dependent_names]) of a loader
    function: [reads_as_missing loader key] when the value is [undefined]
    or [null].  No step changes it. *)
Record State : Type := {
  imageLoaders : gmap string ImageLoaderFn;
  unknownImageLoader : option ImageLoaderFn;
  cache : Cache;
  promises : gmap PromiseRef PromiseCell;
  jobs : list (Reaction * Settlement);
  events : list Event;
  calls : list Call;
  reads_as_missing : ImageLoaderFn → string → bool
}.

Definition set_imageLoaders (m : gmap string ImageLoaderFn) (st : State) :=
  {| imageLoaders := m; unknownImageLoader := unknownImageLoader st;
     cache := cache st; promises := promises st; jobs := jobs st;
     events := events st; calls := calls st;
     reads_as_missing := reads_as_missing st |}.

Definition set_unknownImageLoader (u : option ImageLoaderFn) (st : State) :=
  {| imageLoaders := imageLoaders st; unknownImageLoader := u;
     cache := cache st; promises := promises st; jobs := jobs st;
     events := events st; calls := calls st;
     reads_as_missing := reads_as_missing st |}.

Definition set_cache (c : Cache) (st : State) :=
  {| imageLoaders := imageLoaders st;
     unknownImageLoader := unknownImageLoader st;
     cache := c; promises := promises st; jobs := jobs st;
     events := events st; calls := calls st;
     reads_as_missing := reads_as_missing st |}.

Definition set_promises (ps : gmap PromiseRef PromiseCell) (st : State) :=
  {| imageLoaders := imageLoaders st;
     unknownImageLoader := unknownImageLoader st;
     cache := cache st; promises := ps; jobs := jobs st;
     events := events st; calls := calls st;
     reads_as_missing := reads_as_missing st |}.

Definition set_jobs (js : list (Reaction * Settlement)) (st : State) :=
  {| imageLoaders := imageLoaders st;
     unknownImageLoader := unknownImageLoader st;
     cache := cache st; promises := promises st; jobs := js;
     events := events st; calls := calls st;
     reads_as_missing := reads_as_missing st |}.

Definition set_events (es : list Event) (st : State) :=
  {| imageLoaders := imageLoaders st;
     unknownImageLoader := unknownImageLoader st;
     cache := cache st; promises := promises st; jobs := jobs st;
     events := es; calls := calls st;
     reads_as_missing := reads_as_missing st |}.

Definition log (c : Call) (st : State) :=
  {| imageLoaders := imageLoaders st;
     unknownImageLoader := unknownImageLoader st;
     cache := cache st; promises := promises st; jobs := jobs st;
     events := events st; calls := calls st ++ [c];
     reads_as_missing := reads_as_missing st |}.

(** *** The monad of the module's functions *)

Definition M (A : Type) : Type := State → Completion A * State.

Definition ret {A} (a : A) : M A := λ st, (Return a, st).

Definition bind {A B} (m : M A) (k : A → M B) : M B :=
  λ st, match m st with
        | (Return a, st') => k a st'
        | (Throw e, st') => (Throw e, st')
        end.

Definition throw {A} (e : Thrown) : M A := λ st, (Throw e, st).

Definition gets {A} (f : State → A) : M A := λ st, (Return (f st), st).

Definition modify (f : State → State) : M unit := λ st, (Return tt, f st).

Notation "x <- m ;; k" := (bind m (λ x, k))
  (at level 100, m at next level, right associativity).
Notation "m ;;; k" := (bind m (λ _, k))
  (at level 100, right associativity).

(** *** Collaborators, as the module calls them *)

(** [cache.getImageLoadObject(imageId)] *)
Definition cache_getImageLoadObject (imageId : string)
  : M (option ImageLoadObject) :=
  modify (log (GetImageLoadObject imageId)) ;;;
  gets (λ st, imageCache (cache st) !! imageId).

(** [cache.getVolumeContainingImageId(imageId)] *)
Definition cache_getVolumeContainingImageId (imageId : string)
  : M (option CachedVolumeInfo) :=
  modify (log (GetVolumeContainingImageId imageId)) ;;;
  gets (λ st, volumeCache (cache st) !! imageId).

(** [cache.putImageLoadObject(imageId, imageLoadObject)] *)
Definition cache_putImageLoadObject (imageId : string)
    (imageLoadObject : ImageLoadObject) : M unit :=
  modify (log (PutImageLoadObject imageId imageLoadObject)) ;;;
  modify (λ st,
    set_cache {| imageCache := <[imageId := imageLoadObject]>
                                 (imageCache (cache st));
                 volumeCache := volumeCache (cache st) |} st).

(** [volume.convertToCornerstoneImage(imageId, imageIdIndex)] *)
Definition volume_convertToCornerstoneImage (v : ImageVolume)
    (imageId : string) (index : Z) : M ImageLoadObject :=
  modify (log (ConvertToCornerstoneImage imageId index)) ;;;
  ret (convertToCornerstoneImage v imageId index).

(** [loader(imageId, options)] for the loader found under [scheme] *)
Definition invoke_loader (scheme : string) (loader : ImageLoaderFn)
    (imageId : string) (options : option ImageLoaderOptions)
  : M ImageLoadObject :=
  modify (log (InvokeLoader scheme imageId options)) ;;;
  ret (loader imageId options).

(** [unknownImageLoader(...)] *)
Definition invoke_unknownImageLoader (loader : ImageLoaderFn)
    (imageId : string) (options : option ImageLoaderOptions)
  : M ImageLoadObject :=
  modify (log (InvokeUnknownImageLoader imageId options)) ;;;
  ret (loader imageId options).

(** [triggerEvent(eventTarget, type, detail)] *)
Definition triggerEvent (e : Event) : M unit :=
  modify (λ st, set_events (events st ++ [e]) st).

(** *** Promises *)

(** A promise nobody has touched yet is pending and has no reactions. *)
Definition cell_of (p : PromiseRef) (st : State) : PromiseCell :=
  default {| settled := None; reactions := [] |} (promises st !! p).

(** [p.then(onFulfilled, onRejected)]: on a pending promise the pair is
    kept with the promise, on a settled one a job is queued at once.  The
    derived promise is dropped by the caller and is not modelled. *)
Definition promise_then (p : PromiseRef) (r : Reaction) : M unit :=
  modify (log (PromiseThen p r)) ;;;
  modify (λ st,
    let c := cell_of p st in
    match settled c with
    | None =>
        set_promises
          (<[p := {| settled := None; reactions := reactions c ++ [r] |}]>
             (promises st)) st
    | Some o => set_jobs (jobs st ++ [(r, o)]) st
    end).

(** The host settles a promise: one-shot, and the reactions kept with it
    become jobs, in the order they were attached. *)
Definition settle (p : PromiseRef) (o : Settlement) (st : State) : State :=
  let c := cell_of p st in
  match settled c with
  | Some _ => st
  | None =>
      set_jobs (jobs st ++ ((λ r, (r, o)) <$> reactions c))
        (set_promises
           (<[p := {| settled := Some o; reactions := [] |}]> (promises st))
           st)
  end.

(** The handler pair of lines 54-66. *)
Definition run_reaction (r : Reaction) (o : Settlement) : M unit :=
  match r with
  | BroadcastHandlers imageId =>
      match o with
      | Fulfilled image => triggerEvent (IMAGE_LOADED image)
      | Rejected error => triggerEvent (IMAGE_LOAD_FAILED imageId error)
      end
  end.

(** The host runs the queued jobs, oldest first.  A handler of this module
    queues nothing, so one pass empties the queue. *)
Definition run_jobs (st : State) : State :=
  foldl (λ s j, snd (run_reaction (fst j) (snd j) s)) (set_jobs [] st)
    (jobs st).

(** What the host does between two calls of the module. *)
Inductive HostStep : Type :=
| Settle (p : PromiseRef) (o : Settlement)
| RunJobs.

Definition host_step (h : HostStep) (st : State) : State :=
  match h with
  | Settle p o => settle p o st
  | RunJobs => run_jobs st
  end.

Definition host_steps (hs : list HostStep) (st : State) : State :=
  foldl (λ s h, host_step h s) st hs.

(** *** The registry object *)

(** What [imageLoaders[scheme]] gives: a registered loader, [undefined] (or
    [null]), or something inherited that is not a loader. *)
Inductive PropertyRead : Type :=
| ReadLoader (loader : ImageLoaderFn)
| ReadUndefined
| ReadInherited.

(** The read of [imageLoaders[scheme]]: the registration if there is one;
    else what the prototype chain has under that name.  With the prototype
    the object was created with, that is a property of [Object.prototype];
    after a ["__proto__"] registration the chain starts with that function.
    (The name ["__proto__"] itself reads the prototype: the registered
    function, or [Object.prototype].) *)
Definition registry_read (st : State) (scheme : string) : PropertyRead :=
  match imageLoaders st !! scheme with
  | Some loader => ReadLoader loader
  | None =>
      match imageLoaders st !! "__proto__" with
      | None =>
          if bool_decide (scheme ∈ object_prototype_names) then ReadInherited
          else ReadUndefined
      | Some prototype =>
          if bool_decide (scheme ∈ function_kind_dependent_names) then
            if reads_as_missing st prototype scheme then ReadUndefined
            else ReadInherited
          else if bool_decide (scheme ∈ function_prototype_names
                                        ++ object_prototype_names)
          then ReadInherited
          else ReadUndefined
      end
  end.

(** Whether [imageLoaders[scheme] = imageLoader] is refused: the object has
    no such property of its own and inherits it, read-only, from the
    function a ["__proto__"] registration made its prototype. *)
Definition registration_refused (st : State) (scheme : string) : bool :=
  match imageLoaders st !! scheme, imageLoaders st !! "__proto__" with
  | None, Some _ => bool_decide (scheme ∈ function_read_only_names)
  | _, _ => false
  end.

(** *** imageLoader.ts *)

Definition loadImageFromImageLoader (imageId : string)
    (options : ImageLoaderOptions) : M ImageLoadObject :=
  let colonIndex := indexOf colon imageId in
  let scheme := substring imageId 0%Z colonIndex in
  loader <- gets (λ st, registry_read st scheme) ;;
  match loader with
  | ReadUndefined =>
      unknown <- gets unknownImageLoader ;;
      match unknown with
      | Some unknownLoader =>
          invoke_unknownImageLoader unknownLoader imageId None
      | None => throw NoLoaderError
      end
  | ReadInherited => throw (InheritedPropertyError scheme)
  | ReadLoader loader =>
      imageLoadObject <- invoke_loader scheme loader imageId (Some options) ;;
      promise_then (promise imageLoadObject) (BroadcastHandlers imageId) ;;;
      ret imageLoadObject
  end.

(** The identifier is [None] when the caller passes [undefined]. *)
Definition loadImage (imageId : option string) (options : ImageLoaderOptions)
  : M PromiseRef :=
  match imageId with
  | None => throw loadImage_undefined
  | Some imageId =>
      imageLoadObject <- cache_getImageLoadObject imageId ;;
      match imageLoadObject with
      | Some imageLoadObject => ret (promise imageLoadObject)
      | None =>
          cachedVolumeInfo <- cache_getVolumeContainingImageId imageId ;;
          match cachedVolumeInfo with
          | Some info =>
              if loaded (loadStatus (volume info)) then
                imageLoadObject <-
                  volume_convertToCornerstoneImage (volume info) imageId
                    (imageIdIndex info) ;;
                ret (promise imageLoadObject)
              else
                imageLoadObject <- loadImageFromImageLoader imageId options ;;
                ret (promise imageLoadObject)
          | None =>
              imageLoadObject <- loadImageFromImageLoader imageId options ;;
              ret (promise imageLoadObject)
          end
      end
  end.

Definition loadAndCacheImage (imageId : option string)
    (options : ImageLoaderOptions) : M PromiseRef :=
  match imageId with
  | None => throw loadAndCacheImage_undefined
  | Some imageId =>
      imageLoadObject <- cache_getImageLoadObject imageId ;;
      match imageLoadObject with
      | Some imageLoadObject => ret (promise imageLoadObject)
      | None =>
          cachedVolumeInfo <- cache_getVolumeContainingImageId imageId ;;
          imageLoadObject <-
            match cachedVolumeInfo with
            | Some info =>
                if loaded (loadStatus (volume info)) then
                  volume_convertToCornerstoneImage (volume info) imageId
                    (imageIdIndex info)
                else loadImageFromImageLoader imageId options
            | None => loadImageFromImageLoader imageId options
            end ;;
          cache_putImageLoadObject imageId imageLoadObject ;;;
          ret (promise imageLoadObject)
      end
  end.

Definition registerImageLoader (scheme : string) (imageLoader : ImageLoaderFn)
  : M unit :=
  refused <- gets (λ st, registration_refused st scheme) ;;
  if refused then throw (ReadOnlyPropertyError scheme)
  else
    modify (λ st,
      set_imageLoaders (<[scheme := imageLoader]> (imageLoaders st)) st).

Definition registerUnknownImageLoader (imageLoader : ImageLoaderFn)
  : M (option ImageLoaderFn) :=
  oldImageLoader <- gets unknownImageLoader ;;
  modify (set_unknownImageLoader (Some imageLoader)) ;;;
  ret oldImageLoader.

(** [Object.keys(imageLoaders)]: the object's own keys, among which the
    prototype slot is not. *)
Definition own_keys (m : gmap string ImageLoaderFn) : list string :=
  List.filter (λ k, negb (bool_decide (k = "__proto__")))
    (fst <$> map_to_list m).

(** [Object.keys(imageLoaders).forEach(k => delete imageLoaders[k])], then
    the fallback slot is reset. *)
Definition unregisterAllImageLoaders : M unit :=
  modify (λ st,
    set_imageLoaders
      (foldl (λ m imageLoader, delete imageLoader m) (imageLoaders st)
         (own_keys (imageLoaders st))) st) ;;;
  modify (set_unknownImageLoader None).

(** A call whose caller goes on whatever it throws. *)
Definition attempt {A} (m : M A) : M unit := λ st, (Return tt, snd (m st)).

(** A run of registrations, in order, by a caller that makes each call
    whether or not the one before threw. *)
Fixpoint register_all (regs : list (string * ImageLoaderFn)) : M unit :=
  match regs with
  | [] => ret tt
  | (scheme, imageLoader) :: regs' =>
      attempt (registerImageLoader scheme imageLoader) ;;; register_all regs'
  end.

(** The resolution has nothing to take from the cache for [imageId]:
    no load object, and no volume that is loaded. *)
Definition reaches_dispatch (imageId : string) (st : State) : Prop :=
  imageCache (cache st) !! imageId = None ∧
  match volumeCache (cache st) !! imageId with
  | Some info => loaded (loadStatus (volume info)) = false
  | None => True
  end.

(** State reached from [st] by running [m], and how the run ends. *)
Definition exec {A} (m : M A) (st : State) : State := snd (m st).

Definition eval {A} (m : M A) (st : State) : Completion A := fst (m st).

(** The module at start-up: [const imageLoaders = {}], [let
    unknownImageLoader], an empty cache, nothing pending. *)
Definition initial_state : State :=
  {| imageLoaders := ∅; unknownImageLoader := None;
     cache := {| imageCache := ∅; volumeCache := ∅ |};
     promises := ∅; jobs := []; events := []; calls := [];
     reads_as_missing := λ _ _, false |}.

(** The state in which dispatch starts: both cache questions were asked. *)
Definition after_cache_miss (imageId : string) (st : State) : State :=
  log (GetVolumeContainingImageId imageId)
    (log (GetImageLoadObject imageId) st).

(** A call [loadAndCacheImage(imageId, options)] made in [st] stores the
    load object [imageLoadObject], produced in the state [produced], and
    returns its promise.  The call returns that promise, in the state
    [produced] followed by the cache write, which is the last call made;
    the cache then holds that object under the identifier and is otherwise
    as it was in [st]; and after any steps of the host a call of either
    operation for the identifier returns the same promise, having done
    nothing but look the identifier up in the cache. *)
Definition stores_and_returns (imageId : string)
    (options : ImageLoaderOptions) (st : State)
    (imageLoadObject : ImageLoadObject) (produced : State) : Prop :=
  let st' := exec (cache_putImageLoadObject imageId imageLoadObject) produced in
  loadAndCacheImage (Some imageId) options st
  = (Return (promise imageLoadObject), st') ∧
  imageCache (cache st') !! imageId = Some imageLoadObject ∧
  last (calls st') = Some (PutImageLoadObject imageId imageLoadObject) ∧
  (∀ other, other ≠ imageId →
     imageCache (cache st') !! other = imageCache (cache st) !! other) ∧
  ∀ (hs : list HostStep) options',
    let st'' := host_steps hs st' in
    loadImage (Some imageId) options' st''
    = (Return (promise imageLoadObject),
       log (GetImageLoadObject imageId) st'') ∧
    loadAndCacheImage (Some imageId) options' st''
    = (Return (promise imageLoadObject),
       log (GetImageLoadObject imageId) st'').

(** The event the spec pairs with a settlement of the load for
    [imageId]. *)
Definition event_of (imageId : string) (o : Settlement) : Event :=
  match o with
  | Fulfilled image => IMAGE_LOADED image
  | Rejected error => IMAGE_LOAD_FAILED imageId error
  end.

(** The event a queued job stands for. *)
Definition job_event (j : Reaction * Settlement) : Event :=
  match fst j with
  | BroadcastHandlers imageId => event_of imageId (snd j)
  end.

End ImageLoader.

Notation "x <- m ;; k" := (bind m (λ x, k))
  (at level 100, m at next level, right associativity,
   format "'[v' x  <-  m  ;;  '/' k ']'").
Notation "m ;;; k" := (bind m (λ _, k))
  (at level 100, right associativity,
   format "'[v' m  ;;;  '/' k ']'").

(** ** Concrete instances used to exercise the model *)

(** Images and errors are named by strings, options are a dictionary. *)
Definition ex_State : Type := @State string string (gmap string string).

Definition ex_init : ex_State := initial_state.

(** A loader whose load object depends on whether it was given options. *)
Definition ex_loader (base : nat) : @ImageLoaderFn (gmap string string) :=
  λ imageId options,
    match options with
    | Some _ => {| promise := base; cancel := None |}
    | None => {| promise := S base; cancel := None |}
    end.

Definition ex_options : gmap string string := ∅.

(** A volume that is loaded and holds ["vol:slice"] at index 4. *)
Definition ex_volume : ImageVolume :=
  {| loadStatus := {| loaded := true |};
     convertToCornerstoneImage :=
       λ imageId index, {| promise := 50 + Z.to_nat index; cancel := None |} |}.

Definition ex_with_volume : ex_State :=
  set_cache
    {| imageCache := ∅;
       volumeCache := {[ "vol:slice" := {| volume := ex_volume;
                                           imageIdIndex := 4%Z |} ]} |}
    ex_init.

(** ["wadouri"] has a loader. *)
Definition ex_registered : ex_State :=
  exec (registerImageLoader "wadouri" (ex_loader 10)) ex_init.

(** ... and ["wadouri:a.dcm"] went through [loadAndCacheImage]. *)
Definition ex_cached : ex_State :=
  exec (loadAndCacheImage (Some "wadouri:a.dcm") ex_options) ex_registered.

(** Only a fallback loader is installed. *)
Definition ex_fallback : ex_State :=
  exec (registerUnknownImageLoader (ex_loader 20)) ex_init.

(** A loader sits under the empty scheme, next to a fallback. *)
Definition ex_empty_scheme : ex_State :=
  exec (registerImageLoader "" (ex_loader 10) ;;;
        registerUnknownImageLoader (ex_loader 20)) ex_init.

(** A loader was registered under ["__proto__"], and nothing else. *)
Definition ex_prototype : ex_State :=
  exec (registerImageLoader "__proto__" (ex_loader 10)) ex_init.

(** Options that are not empty. *)
Definition ex_priority : gmap string string := {[ "priority" := "high" ]}.

(** ** Runs of the module *)

Section Runs.

Context {IImage ErrorValue ImageLoaderOptions : Type}.

(** One thing that happens to the module: a call of one of its exported
    functions, or a step of the host. *)
Inductive ApiCall : Type :=
| DoLoadImage (imageId : option string) (options : ImageLoaderOptions)
| DoLoadAndCacheImage (imageId : option string)
    (options : ImageLoaderOptions)
| DoRegisterImageLoader (scheme : string)
    (imageLoader : @ImageLoaderFn ImageLoaderOptions)
| DoRegisterUnknownImageLoader
    (imageLoader : @ImageLoaderFn ImageLoaderOptions)
| DoUnregisterAllImageLoaders
| DoHost (h : @HostStep IImage ErrorValue).

Definition api_step (c : ApiCall)
    (st : @State IImage ErrorValue ImageLoaderOptions)
  : @State IImage ErrorValue ImageLoaderOptions :=
  match c with
  | DoLoadImage imageId options => exec (loadImage imageId options) st
  | DoLoadAndCacheImage imageId options =>
      exec (loadAndCacheImage imageId options) st
  | DoRegisterImageLoader scheme imageLoader =>
      exec (registerImageLoader scheme imageLoader) st
  | DoRegisterUnknownImageLoader imageLoader =>
      exec (registerUnknownImageLoader imageLoader) st
  | DoUnregisterAllImageLoaders => exec unregisterAllImageLoaders st
  | DoHost h => host_step h st
  end.

Definition api_run (cs : list ApiCall)
    (st : @State IImage ErrorValue ImageLoaderOptions)
  : @State IImage ErrorValue ImageLoaderOptions :=
  foldl (λ s c, api_step c s) st cs.

(** Handler pairs waiting on promises that have not settled. *)
Definition pending_reactions
    (st : @State IImage ErrorValue ImageLoaderOptions) : nat :=
  sum_list_with (λ kv, length (reactions (snd kv)))
    (map_to_list (promises st)).

(** Invocations of scheme-registered loaders made so far. *)
Definition scheme_dispatches
    (st : @State IImage ErrorValue ImageLoaderOptions) : nat :=
  length (List.filter is_scheme_loader_call (calls st)).

(** Every handler pair attached for a dispatch is in exactly one place: it
    waits on its promise, it is queued as a job, or it has run and left its
    event. *)
Definition handlers_accounted
    (st : @State IImage ErrorValue ImageLoaderOptions) : Prop :=
  length (events st) + length (jobs st) + pending_reactions st
  = scheme_dispatches st.

End Runs.

(** How a resolution of [imageId] ends, read off the state: the cache
    entry, else the slice of a loaded volume, else what the read of the
    registry under the scheme leads to: the registered loader, the error of
    an inherited property, the fallback loader, or the no-loader error. *)
Definition resolution_result {IImage ErrorValue ImageLoaderOptions : Type}
    (imageId : string) (options : ImageLoaderOptions)
    (st : @State IImage ErrorValue ImageLoaderOptions)
  : Completion PromiseRef :=
  let dispatched :=
    match registry_read st (scheme_of imageId) with
    | ReadLoader loader => Return (promise (loader imageId (Some options)))
    | ReadInherited => Throw (InheritedPropertyError (scheme_of imageId))
    | ReadUndefined =>
        match unknownImageLoader st with
        | Some unknownLoader => Return (promise (unknownLoader imageId None))
        | None => Throw NoLoaderError
        end
    end in
  match imageCache (cache st) !! imageId with
  | Some imageLoadObject => Return (promise imageLoadObject)
  | None =>
      match volumeCache (cache st) !! imageId with
      | Some info =>
          if loaded (loadStatus (volume info)) then
            Return (promise (convertToCornerstoneImage (volume info) imageId
                               (imageIdIndex info)))
          else dispatched
      | None => dispatched
      end
  end.

(** ** The tutorial: loading images from local files *)

(** A [File] of a [FileList]: its name and an opaque handle on its
    contents. *)
Record File : Type := { name : string; blob : nat }.

(** One character of a pattern under the [i] flag: the letter itself or
    its upper-case form. *)
Definition matches_ignoring_case (lower upper a : ascii) : bool :=
  bool_decide (a = lower) || bool_decide (a = upper).

(** [dcm$] tried at the start of [s]: the three letters, then the end of
    the input. *)
Definition dcm_at_end_here (s : string) : bool :=
  match s with
  | String a (String b (String c EmptyString)) =>
      matches_ignoring_case "d" "D" a && matches_ignoring_case "c" "C" b
      && matches_ignoring_case "m" "M" c
  | _ => false
  end.

(** [new RegExp('dcm$', 'i').test(s)]: the pattern is tried at every start
    position, leftmost first. *)
Fixpoint regex_dcm_test (s : string) : bool :=
  dcm_at_end_here s ||
  match s with
  | EmptyString => false
  | String _ s' => regex_dcm_test s'
  end.

(** What the tutorial calls outside itself, in program order. *)
Inductive TutorialCall : Type :=
| FileManagerAdd (file : File)
| WadouriLoadImage (imageId : string)
| GetElementById (id : string)
| CreateElement (tag : string)
| AppendChild (parentId tag : string)
| NewRenderingEngine (id : string)
| EnableElement (viewportId : string)
| GetViewport (viewportId : string)
| SetStack (imageIds : list string) (index : nat)
| Render.

(** The collaborators of the tutorial, none of them code of this module:
    [fileManager.add] of the DICOM image loader, with the file manager's
    own state; how the promise of [wadouri.loadImage(imageId)] settles
    ([None]: fulfilled, [Some e]: rejected with [e]); whether the document
    has an element with id [content]; how the promise of
    [viewport.setStack(stack, 0)] settles. *)
Record TutorialHost (FileManager : Type) : Type := {
  fileManager_add : File → FileManager → string * FileManager;
  wadouri_loadImage : string → option Thrown;
  has_content : bool;
  viewport_setStack : list string → option Thrown
}.
Arguments fileManager_add {FileManager} _ _ _.
Arguments wadouri_loadImage {FileManager} _ _.
Arguments has_content {FileManager} _.
Arguments viewport_setStack {FileManager} _ _.

Record TutorialWorld (FileManager : Type) : Type := {
  fileManager : FileManager;
  trace : list TutorialCall
}.
Arguments fileManager {FileManager} _.
Arguments trace {FileManager} _.

(** [content.appendChild(element)] on a [content] that is [null]. *)
Definition TypeError_null : Thrown :=
  JsError "TypeError: content is null".

Section LocalFiles.

Context {FileManager : Type}.
Variable h : TutorialHost FileManager.

Definition tlog (c : TutorialCall) (w : TutorialWorld FileManager)
  : TutorialWorld FileManager :=
  {| fileManager := fileManager w; trace := trace w ++ [c] |}.

(** Lines 46-51 of [loadImageFromLocalFiles]: the loop over [files] that
    fills [imageIds]. *)
Fixpoint collect_imageIds (files : list File) (w : TutorialWorld FileManager)
  : list string * TutorialWorld FileManager :=
  match files with
  | [] => ([], w)
  | file :: files' =>
      if regex_dcm_test (name file) then
        let '(imageId, fm) := fileManager_add h file (fileManager w) in
        let '(imageIds, w') :=
          collect_imageIds files'
            {| fileManager := fm;
               trace := trace w ++ [FileManagerAdd file] |} in
        (imageId :: imageIds, w')
      else collect_imageIds files' w
  end.

(** The loads are awaited one after the other; a rejection ends the
    function at that [await]. *)
Fixpoint prefetchMetadataInformation (imageIdsToPrefetch : list string)
    (w : TutorialWorld FileManager)
  : Completion unit * TutorialWorld FileManager :=
  match imageIdsToPrefetch with
  | [] => (Return tt, w)
  | imageId :: rest =>
      let w' := tlog (WadouriLoadImage imageId) w in
      match wadouri_loadImage h imageId with
      | Some e => (Throw e, w')
      | None => prefetchMetadataInformation rest w'
      end
  end.

Definition loadByStack (imageIds : list string)
    (w : TutorialWorld FileManager)
  : Completion unit * TutorialWorld FileManager :=
  let w := tlog (GetElementById "content") w in
  let w := tlog (CreateElement "div") w in
  if has_content h then
    let w := tlog (AppendChild "content" "div") w in
    let renderingEngineId := "myRenderingEngine" in
    let viewportId := "CT_AXIAL_STACK" in
    let w := tlog (NewRenderingEngine renderingEngineId) w in
    let w := tlog (EnableElement viewportId) w in
    let w := tlog (GetViewport viewportId) w in
    let stack := imageIds in
    let w := tlog (SetStack stack 0) w in
    match viewport_setStack h stack with
    | Some e => (Throw e, w)
    | None => (Return tt, tlog Render w)
    end
  else (Throw TypeError_null, w).

(** The promise the [async] function returns: fulfilled with [imageIds] or
    rejected. *)
Definition loadImageFromLocalFiles (files : list File)
    (w : TutorialWorld FileManager)
  : Completion (list string) * TutorialWorld FileManager :=
  let '(imageIds, w) := collect_imageIds files w in
  match prefetchMetadataInformation imageIds w with
  | (Throw e, w) => (Throw e, w)
  | (Return _, w) =>
      match loadByStack imageIds w with
      | (Throw e, w) => (Throw e, w)
      | (Return _, w) => (Return imageIds, w)
      end
  end.

End LocalFiles.

(** The names that pass the test. *)
Definition is_dcm_file (file : File) : bool := regex_dcm_test (name file).

(** The calls of [loadByStack] when everything goes well. *)
Definition loadByStack_calls (imageIds : list string) : list TutorialCall :=
  [GetElementById "content"; CreateElement "div";
   AppendChild "content" "div"; NewRenderingEngine "myRenderingEngine";
   EnableElement "CT_AXIAL_STACK"; GetViewport "CT_AXIAL_STACK";
   SetStack imageIds 0; Render].

(** A file manager that numbers the files it is given (one digit is enough
    here). *)
Definition ex_host (rejects : list string) (content : bool)
  : TutorialHost (list File) :=
  {| fileManager_add :=
       λ file files,
         ("dicomfile:" +:+ String (ascii_of_nat (48 + length files)) "",
          files ++ [file]);
     wadouri_loadImage :=
       λ imageId,
         if bool_decide (imageId ∈ rejects) then Some (JsError "load failed")
         else None;
     has_content := content;
     viewport_setStack := λ _, None |}.

Definition ex_files : list File :=
  [ {| name := "a.dcm"; blob := 1 |}; {| name := "notes.txt"; blob := 2 |};
    {| name := "B.DCM"; blob := 3 |}; {| name := "scandcm"; blob := 4 |} ].

Definition ex_world : TutorialWorld (list File) :=
  {| fileManager := []; trace := [] |}.

(** ** The tutorial: reading raw data from files *)






(** ** mouseDownActivate *)

(** The two flags of the store that the handler reads. *)
Record ToolsState : Type := {
  isToolLocked : bool;
  isMultiPartToolActive : bool
}.

(** A tool instance; [addNewMeasurement] is a method it may lack. *)
Record ToolInstance : Type := {
  toolName : string;
  has_addNewMeasurement : bool
}.

Inductive ToolCall (Evt : Type) : Type :=
| GetActiveToolForMouseEvent (evt : Evt)
| AddNewMeasurement (tool : ToolInstance) (evt : Evt)
    (interactionType : string).
Arguments GetActiveToolForMouseEvent {Evt} evt.
Arguments AddNewMeasurement {Evt} tool evt interactionType.

(** The calls [mouseDownActivate(evt)] makes; [getActiveToolForMouseEvent]
    is the lookup of [../shared/getActiveToolForMouseEvent]. *)
Definition mouseDownActivate {Evt : Type}
    (getActiveToolForMouseEvent : Evt → option ToolInstance)
    (state : ToolsState) (evt : Evt) : list (ToolCall Evt) :=
  if isToolLocked state then []
  else
    let calls := [GetActiveToolForMouseEvent evt] in
    match getActiveToolForMouseEvent evt with
    | None => calls
    | Some activeTool =>
        if isMultiPartToolActive state then calls
        else if has_addNewMeasurement activeTool then
          calls ++ [AddNewMeasurement activeTool evt "mouse"]
        else calls
    end.

(** ** The tutorial: setting up the file input *)

(** An element of the document: tag, [id] attribute if it has one, other
    attributes, children in order. *)
#[warnings="-register-all"]
Inductive Element : Type :=
| Elem (tag : string) (id : option string) (attrs : list (string * string))
    (children : list Element).

Definition element_id (e : Element) : option string :=
  match e with Elem _ id _ _ => id end.

Definition element_children (e : Element) : list Element :=
  match e with Elem _ _ _ children => children end.

(** [getElementById(id)] below [e], [e] included: the first element in tree
    order whose id is [id]. *)
Fixpoint getElementById (id : string) (e : Element) : option Element :=
  match e with
  | Elem _ eid _ children =>
      if decide (eid = Some id) then Some e
      else
        (fix first (l : list Element) : option Element :=
           match l with
           | [] => None
           | c :: l' =>
               match getElementById id c with
               | Some r => Some r
               | None => first l'
               end
           end) children
  end.

(** [getElementById(id).appendChild(child)]: [child] becomes the last child
    of the first element in tree order whose id is [id]; nothing changes
    when there is none. *)
Fixpoint appendChild_at (id : string) (child : Element) (e : Element)
  : Element :=
  match e with
  | Elem tag eid attrs children =>
      if decide (eid = Some id) then Elem tag eid attrs (children ++ [child])
      else
        Elem tag eid attrs
          ((fix go (l : list Element) : list Element :=
              match l with
              | [] => []
              | c :: l' =>
                  match getElementById id c with
                  | Some _ => appendChild_at id child c :: l'
                  | None => c :: go l'
                  end
              end) children)
  end.

(** The two loops over the children, under names of their own. *)
Definition first_by_id (id : string) : list Element → option Element :=
  fix first (l : list Element) : option Element :=
    match l with
    | [] => None
    | c :: l' =>
        match getElementById id c with
        | Some r => Some r
        | None => first l'
        end
    end.

Definition append_in_children (id : string) (child : Element)
  : list Element → list Element :=
  fix go (l : list Element) : list Element :=
    match l with
    | [] => []
    | c :: l' =>
        match getElementById id c with
        | Some _ => appendChild_at id child c :: l'
        | None => c :: go l'
        end
    end.

(** The input and the form [setupUI] creates. *)
Definition formInput : Element :=
  Elem "input" (Some "selectFileId")
    [("type", "file"); ("multiple", "true"); ("webkitdirectory", "true")] [].

Definition form : Element := Elem "form" None [] [formInput].

(** [setupUI()] on the document below [document]: how it ends, the document
    it leaves, and the listeners it registered (target and event type). *)
Definition setupUI (document : Element)
  : Completion unit * Element * list (Element * string) :=
  let content := getElementById "content" document in
  match content with
  | None => (Throw (JsError "No Content"), document, [])
  | Some _ =>
      let document := appendChild_at "content" form document in
      let selectButton := getElementById "selectFileId" document in
      match selectButton with
      | None => (Throw (JsError "No Select button"), document, [])
      | Some selectButton =>
          (Return tt, document, [(selectButton, "change")])
      end
  end.

(** A page with a [content] element between two others. *)
Definition ex_document : Element :=
  Elem "html" None []
    [Elem "body" None []
       [Elem "h1" (Some "title") [] [];
        Elem "div" (Some "content") [] [Elem "p" None [] []];
        Elem "footer" None [] []]].

(** A run: the registry is cleared, another identifier is loaded and
    cached through a new fallback, a promise settles and the jobs run. *)
Definition ex_run : list (@ApiCall string string (gmap string string)) :=
  [DoUnregisterAllImageLoaders;
   DoRegisterUnknownImageLoader (ex_loader 20);
   DoLoadAndCacheImage (Some "other:x") ex_options;
   DoRegisterImageLoader "wadouri" (ex_loader 30);
   DoLoadImage (Some "wadouri:b.dcm") ex_priority;
   DoHost (Settle 30 (Rejected "boom"));
   DoHost RunJobs].

(** ** Scheme parsing *)

Lemma indexOf_from_no_colon (s : string) (i : Z) :
  has_colon s = false → indexOf_from colon s i = (-1)%Z.
Proof.
  revert i. induction s as [|a s IH]; intros i; simpl; [done|].
  destruct (decide (a = colon)); [done|]. intros H. by apply IH.
Qed.

Lemma indexOf_from_first (s body : string) (i : Z) :
  has_colon s = false →
  indexOf_from colon (s +:+ String colon body) i
  = (i + Z.of_nat (String.length s))%Z.
Proof.
  revert i. induction s as [|a s IH]; intros i; simpl.
  - intros _. destruct (decide (colon = colon)); [lia|done].
  - destruct (decide (a = colon)); [done|]. intros H.
    rewrite IH by done. lia.
Qed.

Lemma string_substring_0_0 (s : string) : String.substring 0 0 s = "".
Proof. by destruct s. Qed.

Lemma string_substring_prefix (s t : string) :
  String.substring 0 (String.length s) (s +:+ t) = s.
Proof.
  induction s as [|a s IH]; simpl; [apply string_substring_0_0|].
  by rewrite IH.
Qed.

Lemma string_length_app (s t : string) :
  String.length (s +:+ t) = String.length s + String.length t.
Proof. induction s as [|a s IH]; simpl; [done|]. by rewrite IH. Qed.

(** An identifier without a colon has the empty scheme: [indexOf] answers
    [-1] and [substring(0, -1)] is the empty string. *)
Lemma scheme_of_no_colon (imageId : string) :
  has_colon imageId = false →
  indexOf colon imageId = (-1)%Z ∧ scheme_of imageId = "".
Proof.
  intros H. unfold scheme_of, indexOf.
  rewrite (indexOf_from_no_colon _ _ H). split; [done|].
  unfold substring, clamp_index.
  replace (Z.min _ _) with 0%Z by lia.
  replace (Z.max (Z.max _ _) (Z.max _ _)) with 0%Z by lia.
  simpl. apply string_substring_0_0.
Qed.

(** The scheme is what stands before the first colon. *)
Lemma scheme_of_prefix (scheme body : string) :
  has_colon scheme = false →
  scheme_of (scheme +:+ String colon body) = scheme.
Proof.
  intros H. unfold scheme_of, indexOf.
  rewrite (indexOf_from_first _ _ _ H).
  unfold substring, clamp_index. rewrite string_length_app. simpl.
  set (n := String.length scheme). set (m := String.length body).
  replace (Z.min (Z.max 0 _) (Z.max 0 _)) with 0%Z by lia.
  replace (Z.max (Z.max 0 _) (Z.max 0 _)) with (Z.of_nat n) by lia.
  replace (Z.to_nat 0) with 0 by done.
  replace (Z.to_nat (Z.of_nat n - 0)) with n by lia.
  apply string_substring_prefix.
Qed.

Section Properties.

Context {IImage ErrorValue ImageLoaderOptions : Type}.

Abbreviation State := (@State IImage ErrorValue ImageLoaderOptions).
Abbreviation ImageLoaderFn := (@ImageLoaderFn ImageLoaderOptions).
Abbreviation Settlement := (@Settlement IImage ErrorValue).

Implicit Types (st : State) (imageId scheme : string)
  (options : ImageLoaderOptions) (o : Settlement)
  (loader unknownLoader : ImageLoaderFn).

(** Attaching a handler pair never throws. *)
Lemma promise_then_returns (p : PromiseRef) (r : Reaction) st :
  promise_then p r st = (Return tt, exec (promise_then p r) st).
Proof. reflexivity. Qed.

(** *** Reading the registry *)

Lemma registry_read_registered st scheme loader :
  imageLoaders st !! scheme = Some loader →
  registry_read st scheme = ReadLoader loader.
Proof. intros H. unfold registry_read. by rewrite H. Qed.

Lemma registry_read_loader st scheme loader :
  registry_read st scheme = ReadLoader loader →
  imageLoaders st !! scheme = Some loader.
Proof.
  unfold registry_read.
  destruct (imageLoaders st !! scheme) as [f|]; [by intros [= ->]|].
  destruct (imageLoaders st !! "__proto__");
    repeat (destruct (bool_decide _) || destruct (reads_as_missing _ _ _));
    done.
Qed.

Ltac not_a_name :=
  let H := fresh in
  intros H; vm_compute in H;
  repeat (apply elem_of_cons in H as [H|H]; [discriminate H|]);
  by apply elem_of_nil in H.

(** A name that no prototype has reads as [undefined] where nothing is
    registered under it. *)
Lemma registry_read_plain st scheme :
  imageLoaders st !! scheme = None →
  scheme ∉ function_kind_dependent_names →
  scheme ∉ function_prototype_names ++ object_prototype_names →
  registry_read st scheme = ReadUndefined.
Proof.
  intros H Hk Hf. unfold registry_read. rewrite H.
  destruct (imageLoaders st !! "__proto__").
  - by rewrite !bool_decide_eq_false_2.
  - rewrite bool_decide_eq_false_2; [done|].
    intros Hin. apply Hf. apply elem_of_app. by right.
Qed.

(** *** Dispatch: the ways [loadImageFromImageLoader] ends *)

Lemma dispatch_registered imageId options st loader :
  imageLoaders st !! scheme_of imageId = Some loader →
  loadImageFromImageLoader imageId options st
  = (Return (loader imageId (Some options)),
     exec (promise_then (promise (loader imageId (Some options)))
             (BroadcastHandlers imageId))
       (log (InvokeLoader (scheme_of imageId) imageId (Some options)) st)).
Proof.
  intros H. unfold loadImageFromImageLoader, bind, gets. cbv zeta.
  change (substring imageId 0 (indexOf colon imageId)) with (scheme_of imageId).
  by rewrite (registry_read_registered _ _ _ H).
Qed.

Lemma dispatch_inherited imageId options st :
  registry_read st (scheme_of imageId) = ReadInherited →
  loadImageFromImageLoader imageId options st
  = (Throw (InheritedPropertyError (scheme_of imageId)), st).
Proof.
  intros H. unfold loadImageFromImageLoader, bind, gets. cbv zeta.
  change (substring imageId 0 (indexOf colon imageId)) with (scheme_of imageId).
  by rewrite H.
Qed.

Lemma dispatch_unknown imageId options st unknownLoader :
  registry_read st (scheme_of imageId) = ReadUndefined →
  unknownImageLoader st = Some unknownLoader →
  loadImageFromImageLoader imageId options st
  = (Return (unknownLoader imageId None),
     log (InvokeUnknownImageLoader imageId None) st).
Proof.
  intros H Hu. unfold loadImageFromImageLoader, bind, gets. cbv zeta.
  change (substring imageId 0 (indexOf colon imageId)) with (scheme_of imageId).
  by rewrite H, Hu.
Qed.

Lemma dispatch_no_loader imageId options st :
  registry_read st (scheme_of imageId) = ReadUndefined →
  unknownImageLoader st = None →
  loadImageFromImageLoader imageId options st = (Throw NoLoaderError, st).
Proof.
  intros H Hu. unfold loadImageFromImageLoader, bind, gets. cbv zeta.
  change (substring imageId 0 (indexOf colon imageId)) with (scheme_of imageId).
  by rewrite H, Hu.
Qed.

(** *** What the steps leave alone *)

Lemma promise_then_frame (p : PromiseRef) (r : Reaction) st :
  let st' := exec (promise_then p r) st in
  imageLoaders st' = imageLoaders st ∧
  unknownImageLoader st' = unknownImageLoader st ∧
  cache st' = cache st ∧ events st' = events st ∧
  calls st' = calls st ++ [PromiseThen p r].
Proof.
  unfold exec, promise_then, bind, modify. cbn [fst snd].
  by destruct (settled (cell_of p (log (PromiseThen p r) st))).
Qed.

Lemma settle_frame (p : PromiseRef) o st :
  let st' := settle p o st in
  imageLoaders st' = imageLoaders st ∧
  unknownImageLoader st' = unknownImageLoader st ∧
  cache st' = cache st ∧ events st' = events st ∧ calls st' = calls st.
Proof. unfold settle. by destruct (settled (cell_of p st)). Qed.

Lemma run_reaction_frame (r : Reaction) o st :
  let st' := exec (run_reaction r o) st in
  imageLoaders st' = imageLoaders st ∧
  unknownImageLoader st' = unknownImageLoader st ∧
  cache st' = cache st ∧ calls st' = calls st ∧
  events st' = events st ++ [event_of (match r with BroadcastHandlers i => i end) o].
Proof. by destruct r, o. Qed.

Lemma run_jobs_frame st :
  let st' := run_jobs st in
  imageLoaders st' = imageLoaders st ∧
  unknownImageLoader st' = unknownImageLoader st ∧
  cache st' = cache st ∧ calls st' = calls st.
Proof.
  unfold run_jobs.
  change (imageLoaders st) with (imageLoaders (set_jobs [] st)).
  change (unknownImageLoader st) with (unknownImageLoader (set_jobs [] st)).
  change (cache st) with (cache (set_jobs [] st)).
  change (calls st) with (calls (set_jobs [] st)).
  generalize (set_jobs [] st). induction (jobs st) as [|[r o] js IH]; intros s.
  - done.
  - cbn [foldl fst snd].
    destruct (IH (snd (run_reaction r o s))) as (-> & -> & -> & ->).
    by destruct (run_reaction_frame r o s) as (? & ? & ? & ? & _).
Qed.

(** The host never touches the cache or the registry. *)
Lemma host_steps_frame (hs : list HostStep) st :
  let st' := host_steps hs st in
  imageLoaders st' = imageLoaders st ∧
  unknownImageLoader st' = unknownImageLoader st ∧
  cache st' = cache st ∧ calls st' = calls st.
Proof.
  unfold host_steps. revert st.
  induction hs as [|h hs IH]; intros st; [done|].
  cbn [foldl]. destruct (IH (host_step h st)) as (-> & -> & -> & ->).
  destruct h as [p o|]; cbn [host_step].
  - by destruct (settle_frame p o st) as (? & ? & ? & ? & ?).
  - apply run_jobs_frame.
Qed.

(** Dispatch reads the registry and writes neither it nor the cache; a
    cache write is not among the calls it makes. *)
Lemma dispatch_frame imageId options st :
  let st' := exec (loadImageFromImageLoader imageId options) st in
  imageLoaders st' = imageLoaders st ∧
  unknownImageLoader st' = unknownImageLoader st ∧
  cache st' = cache st ∧
  List.filter is_put_call (calls st') = List.filter is_put_call (calls st).
Proof.
  destruct (registry_read st (scheme_of imageId)) as [loader| |] eqn:H.
  - apply registry_read_loader in H.
    unfold exec at 1. rewrite (dispatch_registered _ options _ _ H). cbn [snd].
    destruct (promise_then_frame (promise (loader imageId (Some options)))
                (BroadcastHandlers imageId)
                (log (InvokeLoader (scheme_of imageId) imageId (Some options))
                   st)) as (-> & -> & -> & _ & ->).
    cbn [log imageLoaders unknownImageLoader cache calls].
    rewrite !List.filter_app. cbn. by rewrite !app_nil_r.
  - unfold exec. destruct (unknownImageLoader st) as [u|] eqn:Hu.
    + rewrite (dispatch_unknown _ options _ _ H Hu).
      cbn [snd log imageLoaders unknownImageLoader cache calls].
      rewrite List.filter_app. cbn. by rewrite app_nil_r.
    + by rewrite (dispatch_no_loader _ options _ H Hu).
  - unfold exec. by rewrite (dispatch_inherited _ options _ H).
Qed.

(** What a dispatch through a registered loader shows: the loader's load
    object, one invocation with both arguments, one handler pair attached,
    and no event yet. *)
Lemma dispatch_registered_obs imageId options st loader :
  imageLoaders st !! scheme_of imageId = Some loader →
  let lo := loader imageId (Some options) in
  eval (loadImageFromImageLoader imageId options) st = Return lo ∧
  calls (exec (loadImageFromImageLoader imageId options) st)
  = calls st ++ [InvokeLoader (scheme_of imageId) imageId (Some options);
                 PromiseThen (promise lo) (BroadcastHandlers imageId)] ∧
  events (exec (loadImageFromImageLoader imageId options) st) = events st.
Proof.
  intros H. unfold eval, exec at 1 2.
  rewrite (dispatch_registered _ options _ _ H). cbn [fst snd].
  match goal with
  | |- context [exec (promise_then ?p ?r) ?s] =>
      destruct (promise_then_frame p r s) as (_ & _ & _ & -> & ->)
  end.
  cbn [log calls events]. by rewrite <- app_assoc.
Qed.

(** *** Resolution order *)

Lemma loadImage_dispatches imageId options st :
  reaches_dispatch imageId st →
  loadImage (Some imageId) options st
  = match loadImageFromImageLoader imageId options
            (after_cache_miss imageId st) with
    | (Return lo, st') => (Return (promise lo), st')
    | (Throw e, st') => (Throw e, st')
    end.
Proof.
  intros [Hc Hv]. unfold loadImage, cache_getImageLoadObject,
    cache_getVolumeContainingImageId, bind, modify, gets, ret.
  cbn [log cache]. rewrite Hc. revert Hv.
  change (cache (log (GetImageLoadObject imageId) st)) with (cache st).
  destruct (volumeCache (cache st) !! imageId) as [info|];
    [intros ->|intros _]; unfold after_cache_miss;
    by destruct (loadImageFromImageLoader _ _ _) as [[lo|e] st'].
Qed.

Lemma loadAndCacheImage_dispatches imageId options st :
  reaches_dispatch imageId st →
  loadAndCacheImage (Some imageId) options st
  = match loadImageFromImageLoader imageId options
            (after_cache_miss imageId st) with
    | (Return lo, st') =>
        (Return (promise lo), exec (cache_putImageLoadObject imageId lo) st')
    | (Throw e, st') => (Throw e, st')
    end.
Proof.
  intros [Hc Hv]. unfold loadAndCacheImage, cache_getImageLoadObject,
    cache_getVolumeContainingImageId, bind, modify, gets, ret.
  cbn [log cache]. rewrite Hc. revert Hv.
  change (cache (log (GetImageLoadObject imageId) st)) with (cache st).
  destruct (volumeCache (cache st) !! imageId) as [info|];
    [intros ->|intros _]; unfold after_cache_miss;
    by destruct (loadImageFromImageLoader _ _ _) as [[lo|e] st'].
Qed.

Lemma cache_hit_step imageId options st lo :
  imageCache (cache st) !! imageId = Some lo →
  loadImage (Some imageId) options st
  = (Return (promise lo), log (GetImageLoadObject imageId) st) ∧
  loadAndCacheImage (Some imageId) options st
  = (Return (promise lo), log (GetImageLoadObject imageId) st).
Proof.
  intros H. unfold loadImage, loadAndCacheImage,
    cache_getImageLoadObject, bind, modify, gets, ret.
  cbn [log cache]. by rewrite H.
Qed.

Lemma volume_step imageId options st info :
  imageCache (cache st) !! imageId = None →
  volumeCache (cache st) !! imageId = Some info →
  loaded (loadStatus (volume info)) = true →
  let lo := convertToCornerstoneImage (volume info) imageId
              (imageIdIndex info) in
  let st' := log (ConvertToCornerstoneImage imageId (imageIdIndex info))
               (after_cache_miss imageId st) in
  loadImage (Some imageId) options st = (Return (promise lo), st') ∧
  loadAndCacheImage (Some imageId) options st
  = (Return (promise lo), exec (cache_putImageLoadObject imageId lo) st').
Proof.
  intros Hc Hv Hl. unfold loadImage, loadAndCacheImage,
    cache_getImageLoadObject, cache_getVolumeContainingImageId,
    volume_convertToCornerstoneImage, bind, modify, gets, ret.
  cbn [log cache]. rewrite Hc.
  change (cache (log (GetImageLoadObject imageId) st)) with (cache st).
  by rewrite Hv, Hl.
Qed.

(** In the first two steps no loader is invoked: the calls made contain no
    loader invocation, whatever the registry holds. *)
Lemma cache_and_volume_steps_skip_loaders imageId options st :
  (is_Some (imageCache (cache st) !! imageId) ∨
   ∃ info, volumeCache (cache st) !! imageId = Some info ∧
           loaded (loadStatus (volume info)) = true) →
  List.filter is_loader_call (calls (exec (loadImage (Some imageId) options) st))
  = List.filter is_loader_call (calls st) ∧
  List.filter is_loader_call
    (calls (exec (loadAndCacheImage (Some imageId) options) st))
  = List.filter is_loader_call (calls st).
Proof.
  destruct (imageCache (cache st) !! imageId) as [lo|] eqn:Hc.
  - intros _. unfold exec.
    destruct (cache_hit_step _ options _ _ Hc) as [-> ->].
    cbn [snd log calls]. rewrite List.filter_app. cbn.
    by rewrite app_nil_r.
  - intros [[? [=]]|(info & Hv & Hl)]. unfold exec.
    destruct (volume_step _ options _ _ Hc Hv Hl) as [-> ->].
    cbn. rewrite !List.filter_app. cbn. by rewrite !app_nil_r.
Qed.

(** ... and the result does not depend on what the registry holds. *)
Lemma cache_and_volume_steps_ignore_registry imageId options st
    (m : gmap string ImageLoaderFn) (u : option ImageLoaderFn) :
  (is_Some (imageCache (cache st) !! imageId) ∨
   ∃ info, volumeCache (cache st) !! imageId = Some info ∧
           loaded (loadStatus (volume info)) = true) →
  let st' := set_unknownImageLoader u (set_imageLoaders m st) in
  eval (loadImage (Some imageId) options) st'
  = eval (loadImage (Some imageId) options) st ∧
  eval (loadAndCacheImage (Some imageId) options) st'
  = eval (loadAndCacheImage (Some imageId) options) st.
Proof.
  intros H st'. unfold eval.
  assert (cache st' = cache st) as Hcache by done.
  destruct (imageCache (cache st) !! imageId) as [lo|] eqn:Hc.
  - destruct (cache_hit_step _ options st _ Hc) as [-> ->].
    rewrite <- Hcache in Hc.
    by destruct (cache_hit_step _ options st' _ Hc) as [-> ->].
  - destruct H as [[? [=]]|(info & Hv & Hl)].
    destruct (volume_step _ options st _ Hc Hv Hl) as [-> ->].
    rewrite <- Hcache in Hc, Hv.
    by destruct (volume_step _ options st' _ Hc Hv Hl) as [-> ->].
Qed.

Lemma put_then_get imageId (lo : ImageLoadObject) st :
  let st' := exec (cache_putImageLoadObject imageId lo) st in
  imageCache (cache st') !! imageId = Some lo ∧
  calls st' = calls st ++ [PutImageLoadObject imageId lo].
Proof. split; [apply lookup_insert_eq|done]. Qed.

(** *** Promises: attaching, settling, running jobs *)

Lemma run_jobs_spec st :
  run_jobs st
  = set_events (events st ++ (job_event <$> jobs st)) (set_jobs [] st).
Proof.
  assert (∀ (js : list (Reaction * Settlement)) (s : State),
            foldl (λ s j, snd (run_reaction (fst j) (snd j) s)) s js
            = set_events (events s ++ (job_event <$> js)) s) as Hfold.
  { induction js as [|[r o] js IH]; intros s; cbn [foldl fmap list_fmap].
    - rewrite app_nil_r. by destruct s.
    - rewrite IH. destruct r as [i], o as [image|error]; cbn;
        by rewrite <- app_assoc. }
  unfold run_jobs. by rewrite Hfold.
Qed.

Lemma settle_pending (p : PromiseRef) o st :
  settled (cell_of p st) = None →
  settle p o st
  = set_jobs (jobs st ++ ((λ r, (r, o)) <$> reactions (cell_of p st)))
      (set_promises
         (<[p := {| settled := Some o; reactions := [] |}]> (promises st)) st).
Proof. intros H. unfold settle. by rewrite H. Qed.

(** Settling is one-shot. *)
Lemma settle_settled (p : PromiseRef) o o' st :
  settled (cell_of p st) = Some o → settle p o' st = st.
Proof. intros H. unfold settle. by rewrite H. Qed.

Lemma then_pending (p : PromiseRef) (r : Reaction) st :
  settled (cell_of p st) = None →
  exec (promise_then p r) st
  = set_promises
      (<[p := {| settled := None;
                 reactions := reactions (cell_of p st) ++ [r] |}]>
         (promises st))
      (log (PromiseThen p r) st).
Proof.
  intros H. unfold exec, promise_then, bind, modify. cbn [snd].
  change (cell_of p (log (PromiseThen p r) st)) with (cell_of p st).
  by rewrite H.
Qed.

Lemma then_settled (p : PromiseRef) (r : Reaction) o st :
  settled (cell_of p st) = Some o →
  exec (promise_then p r) st
  = set_jobs (jobs st ++ [(r, o)]) (log (PromiseThen p r) st).
Proof.
  intros H. unfold exec, promise_then, bind, modify. cbn [snd].
  change (cell_of p (log (PromiseThen p r) st)) with (cell_of p st).
  by rewrite H.
Qed.

(** Once a promise is settled and the jobs have run, settling it again
    and running the jobs again emits nothing. *)
Lemma settled_is_final (p : PromiseRef) o o' st :
  settled (cell_of p st) = Some o → jobs st = [] →
  events (run_jobs (settle p o' st)) = events st.
Proof.
  intros H Hj. rewrite (settle_settled _ _ _ _ H), run_jobs_spec, Hj.
  cbn. by rewrite app_nil_r.
Qed.

(** A load dispatched through a registered loader is announced once.
    Nothing is emitted by the time the dispatch returns.  If the promise is
    pending, settling it and running the jobs emits, next to what the host
    would have emitted without this dispatch, the one event of the
    settlement; if it was settled already, running the jobs does.  Settling
    again emits nothing more. *)
Lemma registered_dispatch_emits_once imageId options st loader :
  imageLoaders st !! scheme_of imageId = Some loader →
  let p := promise (loader imageId (Some options)) in
  let st1 := exec (loadImageFromImageLoader imageId options) st in
  events st1 = events st ∧
  (settled (cell_of p st) = None → ∀ o,
     let st2 := run_jobs (settle p o st1) in
     events st2 = events (run_jobs (settle p o st)) ++ [event_of imageId o] ∧
     ∀ o', events (run_jobs (settle p o' st2)) = events st2) ∧
  (∀ o, settled (cell_of p st) = Some o →
     let st2 := run_jobs st1 in
     events st2 = events (run_jobs st) ++ [event_of imageId o] ∧
     ∀ o', events (run_jobs (settle p o' st2)) = events st2).
Proof.
  intros H p st1.
  assert (st1 = exec (promise_then p (BroadcastHandlers imageId))
                  (log (InvokeLoader (scheme_of imageId) imageId
                          (Some options)) st)) as E.
  { unfold st1, exec at 1. by rewrite (dispatch_registered _ options _ _ H). }
  set (s0 := log (InvokeLoader (scheme_of imageId) imageId (Some options)) st)
    in E.
  assert (cell_of p s0 = cell_of p st) as Hcell by done.
  split; [|split].
  - rewrite E. by destruct (promise_then_frame p (BroadcastHandlers imageId) s0)
      as (_ & _ & _ & -> & _).
  - intros Hp o st2.
    assert (st1 = set_promises
              (<[p := {| settled := None;
                         reactions := reactions (cell_of p st)
                                      ++ [BroadcastHandlers imageId] |}]>
                 (promises st))
              (log (PromiseThen p (BroadcastHandlers imageId)) s0)) as E1.
    { rewrite E, then_pending by (by rewrite Hcell). by rewrite Hcell. }
    assert (cell_of p st1
            = {| settled := None;
                 reactions := reactions (cell_of p st)
                              ++ [BroadcastHandlers imageId] |}) as Hc1.
    { rewrite E1. unfold cell_of. cbn [promises set_promises].
      by rewrite lookup_insert_eq. }
    assert (settle p o st1
            = set_jobs (jobs st ++ ((λ r, (r, o)) <$>
                          (reactions (cell_of p st)
                           ++ [BroadcastHandlers imageId])))
                (set_promises
                   (<[p := {| settled := Some o; reactions := [] |}]>
                      (promises st1)) st1)) as E2.
    { rewrite settle_pending by (by rewrite Hc1). rewrite Hc1.
      by rewrite E1. }
    split.
    + unfold st2. rewrite E2, !run_jobs_spec, (settle_pending _ _ _ Hp).
      cbn [events jobs set_jobs set_promises set_events].
      rewrite E1. cbn [events set_promises log].
      rewrite !fmap_app, !app_assoc. done.
    + intros o'. apply (settled_is_final p o).
      * unfold st2. rewrite run_jobs_spec, E2. unfold cell_of.
        cbn [promises set_jobs set_promises set_events].
        by rewrite lookup_insert_eq.
      * unfold st2. by rewrite run_jobs_spec.
  - intros o Hp st2.
    assert (st1 = set_jobs (jobs st ++ [(BroadcastHandlers imageId, o)])
                    (log (PromiseThen p (BroadcastHandlers imageId)) s0))
      as E1.
    { rewrite E. by rewrite (then_settled _ _ o) by (by rewrite Hcell). }
    split.
    + unfold st2. rewrite !run_jobs_spec, E1.
      cbn [events jobs set_jobs set_events log].
      rewrite fmap_app, app_assoc. done.
    + intros o'. apply (settled_is_final p o).
      * unfold st2. rewrite run_jobs_spec, E1. done.
      * unfold st2. by rewrite run_jobs_spec.
Qed.

(** A load handed to the fallback loader is not announced: the dispatch
    attaches nothing to the promise, so the host emits exactly what it
    would have emitted without the dispatch. *)
Lemma unknown_dispatch_emits_nothing imageId options st unknownLoader :
  registry_read st (scheme_of imageId) = ReadUndefined →
  unknownImageLoader st = Some unknownLoader →
  let st1 := exec (loadImageFromImageLoader imageId options) st in
  events st1 = events st ∧
  ∀ (p : PromiseRef) o,
    events (run_jobs (settle p o st1)) = events (run_jobs (settle p o st)) ∧
    events (run_jobs st1) = events (run_jobs st).
Proof.
  intros H Hu st1.
  assert (st1 = log (InvokeUnknownImageLoader imageId None) st) as ->.
  { unfold st1, exec. by rewrite (dispatch_unknown _ options _ _ H Hu). }
  split; [done|]. intros p o. rewrite !run_jobs_spec. split; [|done].
  unfold settle.
  change (cell_of p (log (InvokeUnknownImageLoader imageId None) st))
    with (cell_of p st).
  by destruct (settled (cell_of p st)).
Qed.

(** *** Registry lemmas *)

Lemma lookup_foldl_delete {V : Type} (m : gmap string V) (ks : list string)
    (k : string) :
  foldl (λ m k', delete k' m) m ks !! k
  = if decide (k ∈ ks) then None else m !! k.
Proof.
  revert m. induction ks as [|k' ks IH]; intros m; cbn [foldl].
  - rewrite decide_False; [done|]. apply not_elem_of_nil.
  - rewrite IH. destruct (decide (k ∈ ks)) as [Hin|Hin].
    + rewrite decide_True; [done|]. apply elem_of_cons. by right.
    + destruct (decide (k = k')) as [->|Hne].
      * rewrite decide_True by (apply elem_of_cons; by left).
        apply lookup_delete_eq.
      * rewrite decide_False.
        -- by apply lookup_delete_ne.
        -- intros [?|?]%elem_of_cons; done.
Qed.

(** The own keys are the keys of the registrations but the prototype
    slot. *)
Lemma elem_of_own_keys (m : gmap string ImageLoaderFn) (k : string) :
  k ∈ own_keys m ↔ k ≠ "__proto__" ∧ is_Some (m !! k).
Proof.
  unfold own_keys. rewrite list_elem_of_In, List.filter_In,
    <- list_elem_of_In, negb_true_iff, bool_decide_eq_false.
  rewrite list_elem_of_fmap. split.
  - intros [([k' v] & -> & Hin%elem_of_map_to_list) Hne]. by eauto.
  - intros [Hne [v Hv]]. split; [|done]. exists (k, v).
    split; [done|]. by apply elem_of_map_to_list.
Qed.

(** Deleting every own key leaves the prototype slot and nothing else. *)
Lemma delete_own_keys (m : gmap string ImageLoaderFn) (k : string) :
  foldl (λ m k', delete k' m) m (own_keys m) !! k
  = if decide (k = "__proto__") then m !! "__proto__" else None.
Proof.
  rewrite lookup_foldl_delete.
  destruct (decide (k ∈ own_keys m)) as [Hin|Hnot].
  - apply elem_of_own_keys in Hin as [Hne _]. by rewrite decide_False.
  - destruct (decide (k = "__proto__")) as [->|Hne]; [done|].
    destruct (m !! k) as [v|] eqn:Hk; [|done].
    exfalso. apply Hnot. apply elem_of_own_keys. eauto.
Qed.

(** What a registration does: nothing but throw where the assignment is
    refused, and the insertion otherwise. *)
Lemma registerImageLoader_effect scheme (imageLoader : ImageLoaderFn) st :
  registerImageLoader scheme imageLoader st
  = if registration_refused st scheme
    then (Throw (ReadOnlyPropertyError scheme), st)
    else (Return tt,
          set_imageLoaders (<[scheme := imageLoader]> (imageLoaders st)) st).
Proof.
  unfold registerImageLoader, bind, gets.
  by destruct (registration_refused st scheme).
Qed.

(** A scheme other than the one registered reads from the registrations as
    before. *)
Lemma registerImageLoader_other scheme (imageLoader : ImageLoaderFn) st
    scheme' :
  scheme' ≠ scheme →
  imageLoaders (exec (registerImageLoader scheme imageLoader) st) !! scheme'
  = imageLoaders st !! scheme'.
Proof.
  intros Hne. unfold exec. rewrite registerImageLoader_effect.
  destruct (registration_refused st scheme); [done|].
  cbn. apply lookup_insert_ne. congruence.
Qed.

Lemma registerImageLoader_frame scheme (imageLoader : ImageLoaderFn) st :
  let st' := exec (registerImageLoader scheme imageLoader) st in
  unknownImageLoader st' = unknownImageLoader st ∧ cache st' = cache st ∧
  promises st' = promises st ∧ jobs st' = jobs st ∧
  events st' = events st ∧ calls st' = calls st ∧
  reads_as_missing st' = reads_as_missing st.
Proof.
  unfold exec. rewrite registerImageLoader_effect.
  by destruct (registration_refused st scheme).
Qed.

Lemma register_all_returns (regs : list (string * ImageLoaderFn)) st :
  eval (register_all regs) st = Return tt.
Proof.
  revert st. induction regs as [|[scheme f] regs IH]; intros st; [done|].
  apply IH.
Qed.

(** A run of registrations writes the schemes it names and no other. *)
Lemma register_all_other (regs : list (string * ImageLoaderFn)) scheme st :
  Forall (λ r, fst r ≠ scheme) regs →
  imageLoaders (exec (register_all regs) st) !! scheme
  = imageLoaders st !! scheme ∧
  unknownImageLoader (exec (register_all regs) st) = unknownImageLoader st.
Proof.
  revert st. induction regs as [|[s f] regs IH]; intros st Hall; [done|].
  inversion Hall as [|? ? Hne Hrest]; subst.
  destruct (IH (exec (registerImageLoader s f) st) Hrest) as [E1 E2].
  change (exec (register_all ((s, f) :: regs)) st)
    with (exec (register_all regs) (exec (registerImageLoader s f) st)).
  rewrite E1, E2. cbn in Hne.
  destruct (registerImageLoader_frame s f st) as (-> & _).
  split; [|done]. apply registerImageLoader_other. congruence.
Qed.

(** *** The claims *)

(** C2.  [loadImage] and [loadAndCacheImage] resolve an identifier in the
    same three steps.  (1) A load object held by the cache: its promise is
    the result and the only call made is the cache lookup.  (2) Otherwise a
    containing volume whose [loaded] flag is set:
    [convertToCornerstoneImage(imageId, imageIdIndex)] is called and the
    result is the promise of what it returns; the calls made are the two
    cache lookups and the conversion (and the cache write, for
    [loadAndCacheImage]).  In (1) and (2) no loader invocation is among the
    calls and the result is the same whatever the registry and the fallback
    slot hold.  (3) Otherwise the call is the dispatch of
    [loadImageFromImageLoader], started after the two cache lookups. *)
Theorem resolution_order imageId options st :
  (∀ lo, imageCache (cache st) !! imageId = Some lo →
     loadImage (Some imageId) options st
     = (Return (promise lo), log (GetImageLoadObject imageId) st) ∧
     loadAndCacheImage (Some imageId) options st
     = (Return (promise lo), log (GetImageLoadObject imageId) st)) ∧
  (∀ info, imageCache (cache st) !! imageId = None →
     volumeCache (cache st) !! imageId = Some info →
     loaded (loadStatus (volume info)) = true →
     let lo := convertToCornerstoneImage (volume info) imageId
                 (imageIdIndex info) in
     let st' := log (ConvertToCornerstoneImage imageId (imageIdIndex info))
                  (after_cache_miss imageId st) in
     loadImage (Some imageId) options st = (Return (promise lo), st') ∧
     loadAndCacheImage (Some imageId) options st
     = (Return (promise lo), exec (cache_putImageLoadObject imageId lo) st')) ∧
  ((is_Some (imageCache (cache st) !! imageId) ∨
    ∃ info, volumeCache (cache st) !! imageId = Some info ∧
            loaded (loadStatus (volume info)) = true) →
     List.filter is_loader_call
       (calls (exec (loadImage (Some imageId) options) st))
     = List.filter is_loader_call (calls st) ∧
     List.filter is_loader_call
       (calls (exec (loadAndCacheImage (Some imageId) options) st))
     = List.filter is_loader_call (calls st) ∧
     ∀ (m : gmap string ImageLoaderFn) (u : option ImageLoaderFn),
       let st' := set_unknownImageLoader u (set_imageLoaders m st) in
       eval (loadImage (Some imageId) options) st'
       = eval (loadImage (Some imageId) options) st ∧
       eval (loadAndCacheImage (Some imageId) options) st'
       = eval (loadAndCacheImage (Some imageId) options) st) ∧
  (reaches_dispatch imageId st →
     loadImage (Some imageId) options st
     = (let '(c, st') := loadImageFromImageLoader imageId options
                           (after_cache_miss imageId st) in
        match c with
        | Return lo => (Return (promise lo), st')
        | Throw e => (Throw e, st')
        end) ∧
     loadAndCacheImage (Some imageId) options st
     = (let '(c, st') := loadImageFromImageLoader imageId options
                           (after_cache_miss imageId st) in
        match c with
        | Return lo =>
            (Return (promise lo),
             exec (cache_putImageLoadObject imageId lo) st')
        | Throw e => (Throw e, st')
        end)).
Proof.
  split; [|split; [|split]].
  - intros lo H. by apply cache_hit_step.
  - intros info Hc Hv Hl. by apply volume_step.
  - intros H.
    destruct (cache_and_volume_steps_skip_loaders imageId options st H)
      as [E1 E2].
    split; [exact E1|]. split; [exact E2|]. intros m u.
    by apply cache_and_volume_steps_ignore_registry.
  - intros H. rewrite (loadImage_dispatches _ _ _ H).
    rewrite (loadAndCacheImage_dispatches _ _ _ H).
    by destruct (loadImageFromImageLoader _ _ _) as [[lo|e] st'].
Qed.

Lemma stores_and_returns_intro imageId options st (lo : ImageLoadObject)
    produced :
  loadAndCacheImage (Some imageId) options st
  = (Return (promise lo), exec (cache_putImageLoadObject imageId lo) produced) →
  cache produced = cache st →
  stores_and_returns imageId options st lo produced.
Proof.
  intros Hrun Hcache. unfold stores_and_returns. cbn zeta.
  destruct (put_then_get imageId lo produced) as [Hget Hcalls].
  split; [done|]. split; [done|].
  split; [rewrite Hcalls; apply last_snoc|]. split.
  - intros other Hne. unfold exec. cbn. rewrite Hcache.
    apply lookup_insert_ne. congruence.
  - intros hs options'.
    destruct (host_steps_frame hs
                (exec (cache_putImageLoadObject imageId lo) produced))
      as (_ & _ & Hc & _).
    apply cache_hit_step. by rewrite Hc.
Qed.

(** C3.  When [loadAndCacheImage] does not find the identifier in the
    cache, it stores what step 2 or step 3 produces before it returns.
    Step 2, a loaded volume containing the identifier: the call returns the
    promise of the slice [convertToCornerstoneImage(imageId, imageIdIndex)]
    and that slice object is in the cache.  Step 3, dispatch: with a loader
    registered for the scheme the call returns the promise of the load
    object that loader made, and with a fallback instead that of the
    fallback's, and that load object is in the cache.  In each case the
    cache write is the last call made, no other entry of the cache has
    changed, and after any settling and running of jobs by the host a
    second call of either operation for the identifier returns the same
    promise after the cache lookup alone: a cache hit, no second dispatch.
    Every call that returns after a cache miss is one of these. *)
Theorem loadAndCacheImage_caches imageId options st :
  imageCache (cache st) !! imageId = None →
  (∀ info, volumeCache (cache st) !! imageId = Some info →
     loaded (loadStatus (volume info)) = true →
     stores_and_returns imageId options st
       (convertToCornerstoneImage (volume info) imageId (imageIdIndex info))
       (log (ConvertToCornerstoneImage imageId (imageIdIndex info))
          (after_cache_miss imageId st))) ∧
  (reaches_dispatch imageId st →
     (∀ loader, imageLoaders st !! scheme_of imageId = Some loader →
        stores_and_returns imageId options st (loader imageId (Some options))
          (exec (promise_then (promise (loader imageId (Some options)))
                   (BroadcastHandlers imageId))
             (log (InvokeLoader (scheme_of imageId) imageId (Some options))
                (after_cache_miss imageId st)))) ∧
     (∀ unknownLoader,
        registry_read st (scheme_of imageId) = ReadUndefined →
        unknownImageLoader st = Some unknownLoader →
        stores_and_returns imageId options st (unknownLoader imageId None)
          (log (InvokeUnknownImageLoader imageId None)
             (after_cache_miss imageId st)))) ∧
  (∀ (p : PromiseRef) st',
     loadAndCacheImage (Some imageId) options st = (Return p, st') →
     ∃ lo produced,
       promise lo = p ∧
       st' = exec (cache_putImageLoadObject imageId lo) produced ∧
       imageCache (cache st') !! imageId = Some lo ∧
       stores_and_returns imageId options st lo produced).
Proof.
  intros Hc.
  assert (∀ info, volumeCache (cache st) !! imageId = Some info →
     loaded (loadStatus (volume info)) = true →
     stores_and_returns imageId options st
       (convertToCornerstoneImage (volume info) imageId (imageIdIndex info))
       (log (ConvertToCornerstoneImage imageId (imageIdIndex info))
          (after_cache_miss imageId st))) as Hvolume.
  { intros info Hv Hl. apply stores_and_returns_intro; [|done].
    by destruct (volume_step _ options _ _ Hc Hv Hl) as [_ ->]. }
  assert (reaches_dispatch imageId st →
     ∀ loader, imageLoaders st !! scheme_of imageId = Some loader →
        stores_and_returns imageId options st (loader imageId (Some options))
          (exec (promise_then (promise (loader imageId (Some options)))
                   (BroadcastHandlers imageId))
             (log (InvokeLoader (scheme_of imageId) imageId (Some options))
                (after_cache_miss imageId st)))) as Hregistered.
  { intros Hd loader Hreg. apply stores_and_returns_intro.
    - rewrite (loadAndCacheImage_dispatches _ _ _ Hd).
      change (imageLoaders st)
        with (imageLoaders (after_cache_miss imageId st)) in Hreg.
      by rewrite (dispatch_registered _ options _ _ Hreg).
    - match goal with
      | |- context [exec (promise_then ?q ?r) ?s] =>
          by destruct (promise_then_frame q r s) as (_ & _ & -> & _)
      end. }
  assert (reaches_dispatch imageId st →
     ∀ unknownLoader,
        registry_read st (scheme_of imageId) = ReadUndefined →
        unknownImageLoader st = Some unknownLoader →
        stores_and_returns imageId options st (unknownLoader imageId None)
          (log (InvokeUnknownImageLoader imageId None)
             (after_cache_miss imageId st))) as Hunknown.
  { intros Hd u Hr Hu. apply stores_and_returns_intro; [|done].
    rewrite (loadAndCacheImage_dispatches _ _ _ Hd).
    change (registry_read st (scheme_of imageId))
      with (registry_read (after_cache_miss imageId st) (scheme_of imageId))
      in Hr.
    change (unknownImageLoader st)
      with (unknownImageLoader (after_cache_miss imageId st)) in Hu.
    by rewrite (dispatch_unknown _ options _ _ Hr Hu). }
  split; [done|]. split; [by split; [apply Hregistered|apply Hunknown]|].
  intros p st' Hrun.
  assert (∀ lo produced, stores_and_returns imageId options st lo produced →
            ∃ lo produced,
              promise lo = p ∧
              st' = exec (cache_putImageLoadObject imageId lo) produced ∧
              imageCache (cache st') !! imageId = Some lo ∧
              stores_and_returns imageId options st lo produced) as Hfound.
  { intros lo produced H. exists lo, produced.
    pose proof H as (E & Hget & _). rewrite E in Hrun.
    injection Hrun as <- <-. done. }
  assert (reaches_dispatch imageId st →
            ∃ lo produced,
              promise lo = p ∧
              st' = exec (cache_putImageLoadObject imageId lo) produced ∧
              imageCache (cache st') !! imageId = Some lo ∧
              stores_and_returns imageId options st lo produced) as Hdispatch.
  { intros Hd.
    destruct (registry_read st (scheme_of imageId)) as [loader| |] eqn:Hr;
      [|destruct (unknownImageLoader st) as [u|] eqn:Hu|].
    - apply registry_read_loader in Hr. by eapply Hfound, Hregistered.
    - by eapply Hfound, Hunknown.
    - exfalso. rewrite (loadAndCacheImage_dispatches _ _ _ Hd) in Hrun.
      by rewrite (dispatch_no_loader imageId options
                    (after_cache_miss imageId st) Hr Hu) in Hrun.
    - exfalso. rewrite (loadAndCacheImage_dispatches _ _ _ Hd) in Hrun.
      by rewrite (dispatch_inherited imageId options
                    (after_cache_miss imageId st) Hr) in Hrun. }
  destruct (volumeCache (cache st) !! imageId) as [info|] eqn:Hv;
    [destruct (loaded (loadStatus (volume info))) eqn:Hl|].
  - by eapply Hfound, Hvolume.
  - apply Hdispatch. split; [done|by rewrite Hv].
  - apply Hdispatch. split; [done|by rewrite Hv].
Qed.

(** X20.  When the resolution reaches dispatch and the registry reads as
    [undefined] under the scheme of the identifier (nothing is registered
    under it and no prototype has a property of that name): without a
    fallback loader both operations throw [NoLoaderError] at the call, no
    promise being returned, and all that has happened by then are the two
    cache lookups; with a fallback loader installed both return the promise
    of the load object the fallback produced and do not throw.  On an
    object with its first prototype the read is [undefined] for every scheme
    that is not registered and not the name of a property of
    [Object.prototype]. *)
Theorem dispatch_without_registered_loader imageId options st :
  reaches_dispatch imageId st →
  registry_read st (scheme_of imageId) = ReadUndefined →
  (unknownImageLoader st = None →
     loadImage (Some imageId) options st
     = (Throw NoLoaderError, after_cache_miss imageId st) ∧
     loadAndCacheImage (Some imageId) options st
     = (Throw NoLoaderError, after_cache_miss imageId st)) ∧
  (∀ unknownLoader, unknownImageLoader st = Some unknownLoader →
     eval (loadImage (Some imageId) options) st
     = Return (promise (unknownLoader imageId None)) ∧
     eval (loadAndCacheImage (Some imageId) options) st
     = Return (promise (unknownLoader imageId None))) ∧
  ∀ scheme, imageLoaders st !! scheme = None →
    imageLoaders st !! "__proto__" = None →
    scheme ∉ object_prototype_names →
    registry_read st scheme = ReadUndefined.
Proof.
  intros Hd Hreg. unfold eval.
  rewrite (loadImage_dispatches _ _ _ Hd).
  rewrite (loadAndCacheImage_dispatches _ _ _ Hd).
  split; [|split].
  - intros Hu. by rewrite dispatch_no_loader.
  - intros u Hu. by rewrite (dispatch_unknown _ _ _ u).
  - intros scheme H Hp Hn. unfold registry_read. rewrite H, Hp.
    by rewrite bool_decide_eq_false_2.
Qed.

(** C5, as the code has it.  An identifier without a colon has the empty
    scheme, and its dispatch looks the empty string up in the registry like
    any other scheme.  After a run of registrations none of which names the
    empty scheme, from a registry holding nothing under it, no
    scheme-registered loader is invoked: the fallback is, if there is one,
    and [NoLoaderError] is thrown otherwise.  A loader registered under the
    empty string is invoked for every such identifier. *)
Theorem colonless_identifier_dispatch imageId options
    (regs : list (string * ImageLoaderFn)) st0 :
  has_colon imageId = false →
  let st := exec (register_all regs) st0 in
  scheme_of imageId = "" ∧
  (imageLoaders st0 !! "" = None → Forall (λ r, fst r ≠ "") regs →
     loadImageFromImageLoader imageId options st
     = match unknownImageLoader st0 with
       | Some unknownLoader =>
           (Return (unknownLoader imageId None),
            log (InvokeUnknownImageLoader imageId None) st)
       | None => (Throw NoLoaderError, st)
       end ∧
     List.filter is_scheme_loader_call
       (calls (exec (loadImageFromImageLoader imageId options) st))
     = List.filter is_scheme_loader_call (calls st)) ∧
  (∀ loader, imageLoaders st !! "" = Some loader →
     eval (loadImageFromImageLoader imageId options) st
     = Return (loader imageId (Some options)) ∧
     List.filter is_scheme_loader_call
       (calls (exec (loadImageFromImageLoader imageId options) st))
     = List.filter is_scheme_loader_call (calls st)
       ++ [InvokeLoader "" imageId (Some options)]).
Proof.
  intros Hcolon st. destruct (scheme_of_no_colon _ Hcolon) as [_ Hs].
  split; [done|]. split.
  - intros H0 Hall.
    destruct (register_all_other regs "" st0 Hall) as [E1 E2].
    fold st in E1, E2. rewrite H0 in E1.
    apply registry_read_plain in E1; [|by not_a_name..].
    rewrite <- Hs in E1. unfold exec at 1. rewrite <- E2.
    destruct (unknownImageLoader st) as [u|] eqn:Hu.
    + rewrite (dispatch_unknown _ options _ u E1 Hu). split; [done|].
      cbn [snd log calls]. rewrite List.filter_app. cbn.
      by rewrite app_nil_r.
    + by rewrite (dispatch_no_loader _ options _ E1 Hu).
  - intros loader H. rewrite <- Hs in H.
    destruct (dispatch_registered_obs _ options _ _ H) as (-> & -> & _).
    split; [done|]. rewrite List.filter_app, Hs. done.
Qed.

(** C7.  [loadImage] leaves the cache as it found it, whatever the
    identifier (also [undefined]) and however the call ends, and no cache
    write is among the calls it makes. *)
Theorem loadImage_does_not_cache (imageId : option string) options st :
  cache (exec (loadImage imageId options) st) = cache st ∧
  List.filter is_put_call (calls (exec (loadImage imageId options) st))
  = List.filter is_put_call (calls st).
Proof.
  destruct imageId as [imageId|]; [|done].
  destruct (imageCache (cache st) !! imageId) as [lo|] eqn:Hc.
  { unfold exec. destruct (cache_hit_step _ options _ _ Hc) as [-> _].
    split; [done|]. cbn [snd log calls]. rewrite List.filter_app. cbn.
    by rewrite app_nil_r. }
  assert (List.filter is_put_call (calls (after_cache_miss imageId st))
          = List.filter is_put_call (calls st)) as Hmiss.
  { cbn. rewrite !List.filter_app. cbn. by rewrite !app_nil_r. }
  assert (reaches_dispatch imageId st →
          cache (exec (loadImage (Some imageId) options) st) = cache st ∧
          List.filter is_put_call
            (calls (exec (loadImage (Some imageId) options) st))
          = List.filter is_put_call (calls st)) as Hdispatch.
  { intros Hd. unfold exec. rewrite (loadImage_dispatches _ _ _ Hd).
    destruct (dispatch_frame imageId options (after_cache_miss imageId st))
      as (_ & _ & E1 & E2).
    unfold exec in E1, E2.
    destruct (loadImageFromImageLoader _ _ _) as [[lo|e] st'];
      cbn [snd] in *; by rewrite E1, E2, Hmiss. }
  destruct (volumeCache (cache st) !! imageId) as [info|] eqn:Hv;
    [destruct (loaded (loadStatus (volume info))) eqn:Hl|].
  - unfold exec. destruct (volume_step _ options _ _ Hc Hv Hl) as [-> _].
    split; [done|]. cbn [snd log calls].
    rewrite List.filter_app, Hmiss. cbn. by rewrite app_nil_r.
  - apply Hdispatch. split; [done|by rewrite Hv].
  - apply Hdispatch. split; [done|by rewrite Hv].
Qed.

(** X21.  [unregisterAllImageLoaders] returns normally and leaves no fallback
    and no registration under any scheme but ["__proto__"]: the own keys of the
    object are deleted, and the prototype slot, which is not one of them,
    keeps the function a registration under ["__proto__"] put there.
    Running it again changes nothing.  Where nothing was registered under
    ["__proto__"] the registry is left empty, and reads as [undefined] under
    every scheme that is not the name of a property of [Object.prototype];
    and in the state left, a call of either operation that reaches dispatch
    with a scheme under which the registry reads as [undefined] throws
    [NoLoaderError]. *)
Theorem unregisterAll_clears st :
  let st' := exec unregisterAllImageLoaders st in
  eval unregisterAllImageLoaders st = Return tt ∧
  (∀ scheme, scheme ≠ "__proto__" → imageLoaders st' !! scheme = None) ∧
  imageLoaders st' !! "__proto__" = imageLoaders st !! "__proto__" ∧
  unknownImageLoader st' = None ∧
  exec unregisterAllImageLoaders st' = st' ∧
  (imageLoaders st !! "__proto__" = None →
     imageLoaders st' = ∅ ∧
     ∀ scheme, scheme ∉ object_prototype_names →
       registry_read st' scheme = ReadUndefined) ∧
  ∀ imageId options, reaches_dispatch imageId st' →
    registry_read st' (scheme_of imageId) = ReadUndefined →
    eval (loadImage (Some imageId) options) st' = Throw NoLoaderError ∧
    eval (loadAndCacheImage (Some imageId) options) st'
    = Throw NoLoaderError.
Proof.
  set (kept := foldl (λ m k, delete k m) (imageLoaders st)
                 (own_keys (imageLoaders st))).
  assert (exec unregisterAllImageLoaders st
          = set_unknownImageLoader None (set_imageLoaders kept st)) as E
    by done.
  assert (∀ k, kept !! k
               = if decide (k = "__proto__")
                 then imageLoaders st !! "__proto__" else None) as Hkept
    by (intros k; apply delete_own_keys).
  assert (foldl (λ m k, delete k m) kept (own_keys kept) = kept) as Hagain.
  { apply map_eq. intros k. rewrite delete_own_keys, !Hkept.
    by destruct (decide (k = "__proto__")). }
  cbn zeta. rewrite E. split; [done|]. split; [|split; [|split; [done|]]].
  - intros scheme Hne. cbn. rewrite Hkept. by rewrite decide_False.
  - cbn. by rewrite Hkept.
  - split; [|split].
    + unfold exec, unregisterAllImageLoaders, bind, modify. cbn.
      by rewrite Hagain.
    + intros Hp.
      assert (kept = ∅) as Hempty.
      { apply map_eq. intros k. rewrite Hkept, lookup_empty.
        by destruct (decide (k = "__proto__")). }
      split; [done|]. intros scheme Hn. unfold registry_read. cbn.
      rewrite Hempty, !lookup_empty. by rewrite bool_decide_eq_false_2.
    + intros imageId options Hd Hr. unfold eval.
      rewrite (loadImage_dispatches _ _ _ Hd).
      rewrite (loadAndCacheImage_dispatches _ _ _ Hd).
      by rewrite dispatch_no_loader.
Qed.


Lemma defined_identifier_outcome imageId options st :
  ((∃ p, eval (loadImage (Some imageId) options) st = Return p) ∨
   eval (loadImage (Some imageId) options) st = Throw NoLoaderError ∨
   eval (loadImage (Some imageId) options) st
   = Throw (InheritedPropertyError (scheme_of imageId))) ∧
  ((∃ p, eval (loadAndCacheImage (Some imageId) options) st = Return p) ∨
   eval (loadAndCacheImage (Some imageId) options) st = Throw NoLoaderError ∨
   eval (loadAndCacheImage (Some imageId) options) st
   = Throw (InheritedPropertyError (scheme_of imageId))).
Proof.
  unfold eval.
  destruct (imageCache (cache st) !! imageId) as [lo|] eqn:Hc.
  { destruct (cache_hit_step _ options _ _ Hc) as [-> ->].
    split; left; by eexists. }
  assert (reaches_dispatch imageId st →
    ((∃ p, fst (loadImage (Some imageId) options st) = Return p) ∨
     fst (loadImage (Some imageId) options st) = Throw NoLoaderError ∨
     fst (loadImage (Some imageId) options st)
     = Throw (InheritedPropertyError (scheme_of imageId))) ∧
    ((∃ p, fst (loadAndCacheImage (Some imageId) options st) = Return p) ∨
     fst (loadAndCacheImage (Some imageId) options st) = Throw NoLoaderError ∨
     fst (loadAndCacheImage (Some imageId) options st)
     = Throw (InheritedPropertyError (scheme_of imageId))))
    as Hdispatch.
  { intros Hd. rewrite (loadImage_dispatches _ _ _ Hd).
    rewrite (loadAndCacheImage_dispatches _ _ _ Hd).
    set (s := after_cache_miss imageId st).
    destruct (registry_read s (scheme_of imageId)) as [loader| |] eqn:H;
      [|destruct (unknownImageLoader s) as [u|] eqn:Hu|].
    - apply registry_read_loader in H.
      rewrite (dispatch_registered _ options _ _ H).
      split; left; by eexists.
    - rewrite (dispatch_unknown _ options _ _ H Hu).
      split; left; by eexists.
    - rewrite (dispatch_no_loader _ options _ H Hu).
      split; right; by left.
    - rewrite (dispatch_inherited _ options _ H). split; right; by right. }
  destruct (volumeCache (cache st) !! imageId) as [info|] eqn:Hv;
    [destruct (loaded (loadStatus (volume info))) eqn:Hl|].
  - destruct (volume_step _ options _ _ Hc Hv Hl) as [-> ->].
    split; left; by eexists.
  - apply Hdispatch. split; [done|by rewrite Hv].
  - apply Hdispatch. split; [done|by rewrite Hv].
Qed.

(** C10, as the code has it.  The parameter error is thrown exactly when
    the identifier is [undefined], by both operations.  The empty string
    passes the check and is resolved like any identifier, with the empty
    scheme: when the resolution reaches dispatch, the loader registered
    under the empty scheme is used if there is one, else the fallback
    loader, else [NoLoaderError] is thrown. *)
Theorem identifier_precondition (imageId : option string) options st :
  (eval (loadImage imageId options) st = Throw loadImage_undefined
   ↔ imageId = None) ∧
  (eval (loadAndCacheImage imageId options) st
   = Throw loadAndCacheImage_undefined ↔ imageId = None) ∧
  scheme_of "" = "" ∧
  (reaches_dispatch "" st →
     let outcome :=
       match imageLoaders st !! "" with
       | Some loader => Return (promise (loader "" (Some options)))
       | None =>
           match unknownImageLoader st with
           | Some unknownLoader => Return (promise (unknownLoader "" None))
           | None => Throw NoLoaderError
           end
       end in
     eval (loadImage (Some "") options) st = outcome ∧
     eval (loadAndCacheImage (Some "") options) st = outcome).
Proof.
  split; [|split; [|split]].
  - destruct imageId as [imageId|]; [|done]. split; [|done].
    destruct (defined_identifier_outcome imageId options st)
      as [[[p ->]|[-> | ->]] _]; intros E; discriminate E.
  - destruct imageId as [imageId|]; [|done]. split; [|done].
    destruct (defined_identifier_outcome imageId options st)
      as [_ [[p ->]|[-> | ->]]]; intros E; discriminate E.
  - done.
  - intros Hd. cbn zeta. unfold eval.
    rewrite (loadImage_dispatches _ _ _ Hd).
    rewrite (loadAndCacheImage_dispatches _ _ _ Hd).
    change (imageLoaders st !! "")
      with (imageLoaders (after_cache_miss "" st) !! scheme_of "").
    change (unknownImageLoader st)
      with (unknownImageLoader (after_cache_miss "" st)).
    set (s := after_cache_miss "" st).
    destruct (imageLoaders s !! scheme_of "") as [loader|] eqn:H;
      [|destruct (unknownImageLoader s) as [u|] eqn:Hu].
    + by rewrite (dispatch_registered _ options _ _ H).
    + apply registry_read_plain in H; [|by not_a_name..].
      by rewrite (dispatch_unknown _ options _ _ H Hu).
    + apply registry_read_plain in H; [|by not_a_name..].
      by rewrite (dispatch_no_loader _ options _ H Hu).
Qed.

End Properties.

(** ** The claims on concrete runs *)

(** C1.  A load that goes to the fallback loader is not announced.  With
    only a fallback installed, [loadImage("foo:bar", options)] returns the
    fallback's promise; whether that promise is then fulfilled or rejected,
    running the jobs emits no event, neither [IMAGE_LOADED] nor
    [IMAGE_LOAD_FAILED].  The same load through a loader registered for its
    scheme is announced by one event. *)
Theorem fallback_load_emits_no_event :
  let st1 := exec (loadImage (Some "foo:bar") ex_priority) ex_fallback in
  eval (loadImage (Some "foo:bar") ex_priority) ex_fallback = Return 21 ∧
  events st1 = [] ∧
  events (run_jobs (settle 21 (Fulfilled "image") st1)) = [] ∧
  events (run_jobs (settle 21 (Rejected "boom") st1)) = [] ∧
  events (run_jobs (settle 10 (Fulfilled "image")
            (exec (loadImage (Some "wadouri:a.dcm") ex_priority)
               ex_registered)))
  = [IMAGE_LOADED "image"] ∧
  events (run_jobs (settle 10 (Rejected "boom")
            (exec (loadImage (Some "wadouri:a.dcm") ex_priority)
               ex_registered)))
  = [IMAGE_LOAD_FAILED "wadouri:a.dcm" "boom"].
Proof. vm_compute. repeat split. Qed.

(** C6.  The fallback loader is invoked with the identifier alone.  With
    only a fallback installed and non-empty options, the one loader
    invocation of [loadImage("foo:bar", options)] and of
    [loadAndCacheImage("foo:bar", options)] carries no options, and the
    load object returned is the one the loader makes without options, not
    the one it makes with them.  A loader registered for the scheme is
    invoked once with both arguments. *)
Theorem fallback_loader_invoked_without_options :
  List.filter is_loader_call
    (calls (exec (loadImage (Some "foo:bar") ex_priority) ex_fallback))
  = [InvokeUnknownImageLoader "foo:bar" None] ∧
  List.filter is_loader_call
    (calls (exec (loadAndCacheImage (Some "foo:bar") ex_priority) ex_fallback))
  = [InvokeUnknownImageLoader "foo:bar" None] ∧
  eval (loadImage (Some "foo:bar") ex_priority) ex_fallback
  = Return (promise (ex_loader 20 "foo:bar" None)) ∧
  promise (ex_loader 20 "foo:bar" None)
  ≠ promise (ex_loader 20 "foo:bar" (Some ex_priority)) ∧
  List.filter is_loader_call
    (calls (exec (loadImage (Some "wadouri:a.dcm") ex_priority) ex_registered))
  = [InvokeLoader "wadouri" "wadouri:a.dcm" (Some ex_priority)].
Proof. vm_compute. repeat split. discriminate. Qed.

(** C4.  A scheme that names a property of [Object.prototype] is not
    treated as one without a loader.  With nothing registered,
    [loadImage("constructor:x")] and [loadAndCacheImage("constructor:x")]
    reach dispatch and throw, but not [NoLoaderError]: the inherited
    [constructor] passes the check for a missing loader and is used as the
    loader, which ends in an error of the engine.  With a fallback loader
    installed the two calls throw the same error: the fallback is not
    invoked and its load object is not returned.  An identifier with the
    scheme [foo] behaves as specified on the same two states. *)
Theorem inherited_property_is_taken_for_a_loader :
  imageLoaders ex_init !! scheme_of "constructor:x" = None ∧
  unknownImageLoader ex_init = None ∧
  reaches_dispatch "constructor:x" ex_init ∧
  eval (loadImage (Some "constructor:x") ex_options) ex_init
  = Throw (InheritedPropertyError "constructor") ∧
  eval (loadAndCacheImage (Some "constructor:x") ex_options) ex_init
  = Throw (InheritedPropertyError "constructor") ∧
  InheritedPropertyError "constructor" ≠ NoLoaderError ∧
  imageLoaders ex_fallback !! scheme_of "constructor:x" = None ∧
  unknownImageLoader ex_fallback = Some (ex_loader 20) ∧
  reaches_dispatch "constructor:x" ex_fallback ∧
  eval (loadImage (Some "constructor:x") ex_options) ex_fallback
  = Throw (InheritedPropertyError "constructor") ∧
  eval (loadAndCacheImage (Some "constructor:x") ex_options) ex_fallback
  = Throw (InheritedPropertyError "constructor") ∧
  List.filter is_loader_call
    (calls (exec (loadImage (Some "constructor:x") ex_options) ex_fallback))
  = [] ∧
  eval (loadImage (Some "foo:x") ex_options) ex_init = Throw NoLoaderError ∧
  eval (loadImage (Some "foo:x") ex_options) ex_fallback
  = Return (promise (ex_loader 20 "foo:x" None)).
Proof.
  vm_compute. repeat split; (reflexivity || discriminate).
Qed.

(** C8.  [unregisterAllImageLoaders] does not clear every scheme mapping,
    and a call that reaches dispatch after it need not throw
    [NoLoaderError].  A loader registered under ["__proto__"] is not among
    the keys the function deletes: after
    [registerImageLoader("__proto__", L)] and [unregisterAllImageLoaders()]
    the registry still yields [L] for that scheme and
    [loadImage("__proto__:x")] invokes [L] and returns its promise.  And
    after unregistering from a registry with one ordinary loader,
    [loadImage("constructor:x")] and [loadAndCacheImage("constructor:x")]
    throw an error of the engine instead of [NoLoaderError], while
    [loadImage("wadouri:a.dcm")] throws [NoLoaderError]. *)
Theorem unregisterAll_keeps_prototype_registration :
  let st' := exec unregisterAllImageLoaders ex_prototype in
  let st0 := exec unregisterAllImageLoaders ex_registered in
  eval unregisterAllImageLoaders ex_prototype = Return tt ∧
  imageLoaders st' !! "__proto__" = Some (ex_loader 10) ∧
  registry_read st' (scheme_of "__proto__:x") = ReadLoader (ex_loader 10) ∧
  reaches_dispatch "__proto__:x" st' ∧
  eval (loadImage (Some "__proto__:x") ex_options) st'
  = Return (promise (ex_loader 10 "__proto__:x" (Some ex_options))) ∧
  List.filter is_loader_call
    (calls (exec (loadImage (Some "__proto__:x") ex_options) st'))
  = [InvokeLoader "__proto__" "__proto__:x" (Some ex_options)] ∧
  imageLoaders st0 = ∅ ∧ unknownImageLoader st0 = None ∧
  reaches_dispatch "constructor:x" st0 ∧
  eval (loadImage (Some "constructor:x") ex_options) st0
  = Throw (InheritedPropertyError "constructor") ∧
  eval (loadAndCacheImage (Some "constructor:x") ex_options) st0
  = Throw (InheritedPropertyError "constructor") ∧
  InheritedPropertyError "constructor" ≠ NoLoaderError ∧
  eval (loadImage (Some "wadouri:a.dcm") ex_options) st0
  = Throw NoLoaderError.
Proof.
  vm_compute. repeat split; (reflexivity || discriminate).
Qed.


(** C5 fails as stated: after [registerImageLoader("", loader)] the
    colon-less identifier ["abc"] is dispatched to that loader. *)
Lemma colonless_identifier_matches_empty_scheme :
  let st : ex_State := exec (register_all [("", ex_loader 10)]) ex_init in
  has_colon "abc" = false ∧
  eval (loadImageFromImageLoader "abc" ex_options) st
  = Return (ex_loader 10 "abc" (Some ex_options)) ∧
  List.filter is_scheme_loader_call
    (calls (exec (loadImageFromImageLoader "abc" ex_options) st))
  = [InvokeLoader "" "abc" (Some ex_options)].
Proof. vm_compute. repeat split. Qed.

(** C10 fails as stated: with a loader registered under the empty scheme
    and a fallback installed, [loadImage("")] reaches dispatch and uses the
    registered loader; it neither uses the fallback nor throws. *)
Lemma empty_identifier_uses_empty_scheme_loader :
  reaches_dispatch "" ex_empty_scheme ∧
  eval (loadImage (Some "") ex_options) ex_empty_scheme
  = Return (promise (ex_loader 10 "" (Some ex_options))) ∧
  eval (loadImage (Some "") ex_options) ex_empty_scheme
  ≠ Return (promise (ex_loader 20 "" None)) ∧
  eval (loadImage (Some "") ex_options) ex_empty_scheme
  ≠ Throw NoLoaderError ∧
  List.filter is_loader_call
    (calls (exec (loadImage (Some "") ex_options) ex_empty_scheme))
  = [InvokeLoader "" "" (Some ex_options)].
Proof. vm_compute. repeat split; discriminate. Qed.

(** ** The theorems at concrete inputs *)

Lemma resolution_order_witness :
  (imageCache (cache ex_cached) !! "wadouri:a.dcm"
   = Some {| promise := 10; cancel := None |} ∧
   loadImage (Some "wadouri:a.dcm") ex_priority ex_cached
   = (Return 10, log (GetImageLoadObject "wadouri:a.dcm") ex_cached)) ∧
  (imageCache (cache ex_with_volume) !! "vol:slice" = None ∧
   eval (loadAndCacheImage (Some "vol:slice") ex_options) ex_with_volume
   = Return 54) ∧
  (reaches_dispatch "foo:bar" ex_fallback ∧
   eval (loadImage (Some "foo:bar") ex_options) ex_fallback = Return 21).
Proof.
  assert (imageCache (cache ex_cached) !! "wadouri:a.dcm"
          = Some {| promise := 10; cancel := None |}) as H1
    by (vm_compute; reflexivity).
  assert (imageCache (cache ex_with_volume) !! "vol:slice" = None) as H2
    by (vm_compute; reflexivity).
  assert (volumeCache (cache ex_with_volume) !! "vol:slice"
          = Some {| volume := ex_volume; imageIdIndex := 4 |}) as H3
    by (vm_compute; reflexivity).
  assert (reaches_dispatch "foo:bar" ex_fallback) as H4
    by (vm_compute; split; [reflexivity|exact I]).
  split; [|split].
  - split; [exact H1|].
    destruct (resolution_order "wadouri:a.dcm" ex_priority ex_cached)
      as (Hit & _).
    exact (proj1 (Hit _ H1)).
  - split; [exact H2|].
    destruct (resolution_order "vol:slice" ex_options ex_with_volume)
      as (_ & Hvol & _).
    destruct (Hvol _ H2 H3 eq_refl) as [_ E].
    unfold eval. rewrite E. reflexivity.
  - split; [exact H4|].
    destruct (resolution_order "foo:bar" ex_options ex_fallback)
      as (_ & _ & _ & Hdisp).
    destruct (Hdisp H4) as [E _].
    unfold eval. rewrite E. vm_compute. reflexivity.
Defined.

Lemma loadAndCacheImage_caches_witness :
  imageCache (cache ex_registered) !! "wadouri:a.dcm" = None ∧
  reaches_dispatch "wadouri:a.dcm" ex_registered ∧
  imageLoaders ex_registered !! scheme_of "wadouri:a.dcm"
  = Some (ex_loader 10) ∧
  loadAndCacheImage (Some "wadouri:a.dcm") ex_options ex_registered
  = (Return 10, ex_cached) ∧
  imageCache (cache ex_cached) !! "wadouri:a.dcm"
  = Some {| promise := 10; cancel := None |} ∧
  let st'' :=
    host_steps [Settle 10 (Fulfilled "image"); RunJobs] ex_cached in
  loadImage (Some "wadouri:a.dcm") ex_priority st''
  = (Return 10, log (GetImageLoadObject "wadouri:a.dcm") st'') ∧
  loadAndCacheImage (Some "wadouri:a.dcm") ex_priority st''
  = (Return 10, log (GetImageLoadObject "wadouri:a.dcm") st'').
Proof.
  assert (imageCache (cache ex_registered) !! "wadouri:a.dcm" = None) as H1
    by (vm_compute; reflexivity).
  assert (reaches_dispatch "wadouri:a.dcm" ex_registered) as H2
    by (vm_compute; split; [reflexivity|exact I]).
  assert (imageLoaders ex_registered !! scheme_of "wadouri:a.dcm"
          = Some (ex_loader 10)) as H3
    by (vm_compute; reflexivity).
  split; [exact H1|]. split; [exact H2|]. split; [exact H3|].
  destruct (proj1 (proj1 (proj2 (loadAndCacheImage_caches "wadouri:a.dcm"
                                   ex_options ex_registered H1)) H2)
              (ex_loader 10) H3) as (E & Hget & _ & _ & Hhit).
  split; [exact E|]. split; [exact Hget|].
  exact (Hhit [Settle 10 (Fulfilled "image"); RunJobs] ex_priority).
Defined.

Lemma dispatch_without_registered_loader_witness :
  reaches_dispatch "foo:bar" ex_init ∧
  registry_read ex_init (scheme_of "foo:bar") = ReadUndefined ∧
  unknownImageLoader ex_init = None ∧
  loadImage (Some "foo:bar") ex_options ex_init
  = (Throw NoLoaderError, after_cache_miss "foo:bar" ex_init) ∧
  loadAndCacheImage (Some "foo:bar") ex_options ex_init
  = (Throw NoLoaderError, after_cache_miss "foo:bar" ex_init).
Proof.
  assert (reaches_dispatch "foo:bar" ex_init) as H1
    by (vm_compute; split; [reflexivity|exact I]).
  assert (registry_read ex_init (scheme_of "foo:bar") = ReadUndefined) as H2
    by (vm_compute; reflexivity).
  split; [exact H1|]. split; [exact H2|]. split; [reflexivity|].
  exact (proj1 (dispatch_without_registered_loader "foo:bar" ex_options
                  ex_init H1 H2) eq_refl).
Defined.

Lemma colonless_identifier_dispatch_witness :
  has_colon "abc" = false ∧
  imageLoaders ex_fallback !! "" = None ∧
  Forall (λ r, fst r ≠ "") [("wadouri", ex_loader 10)] ∧
  eval (loadImageFromImageLoader "abc" ex_options)
    (exec (register_all [("wadouri", ex_loader 10)]) ex_fallback)
  = Return (ex_loader 20 "abc" None).
Proof.
  assert (imageLoaders ex_fallback !! "" = None) as H1
    by (vm_compute; reflexivity).
  assert (Forall (λ r : string * @ImageLoaderFn (gmap string string),
                    fst r ≠ "") [("wadouri", ex_loader 10)]) as H2
    by (repeat constructor; discriminate).
  split; [reflexivity|]. split; [exact H1|]. split; [exact H2|].
  destruct (colonless_identifier_dispatch "abc" ex_options
              [("wadouri", ex_loader 10)] ex_fallback eq_refl)
    as (_ & Hmiss & _).
  destruct (Hmiss H1 H2) as [E _]. unfold eval. rewrite E.
  vm_compute. reflexivity.
Defined.

Lemma unregisterAll_clears_witness :
  let st' := exec unregisterAllImageLoaders ex_empty_scheme in
  imageLoaders ex_empty_scheme !! "__proto__" = None ∧
  imageLoaders st' = ∅ ∧
  reaches_dispatch "wadouri:a.dcm" st' ∧
  registry_read st' (scheme_of "wadouri:a.dcm") = ReadUndefined ∧
  eval (loadImage (Some "wadouri:a.dcm") ex_options) st'
  = Throw NoLoaderError ∧
  eval (loadAndCacheImage (Some "wadouri:a.dcm") ex_options) st'
  = Throw NoLoaderError.
Proof.
  assert (imageLoaders ex_empty_scheme !! "__proto__" = None) as H0
    by (vm_compute; reflexivity).
  assert (reaches_dispatch "wadouri:a.dcm"
            (exec unregisterAllImageLoaders ex_empty_scheme)) as H1
    by (vm_compute; split; [reflexivity|exact I]).
  assert (registry_read (exec unregisterAllImageLoaders ex_empty_scheme)
            (scheme_of "wadouri:a.dcm") = ReadUndefined) as H2
    by (vm_compute; reflexivity).
  destruct (unregisterAll_clears ex_empty_scheme)
    as (_ & _ & _ & _ & _ & Hempty & H).
  split; [exact H0|]. split; [exact (proj1 (Hempty H0))|].
  split; [exact H1|]. split; [exact H2|].
  exact (H "wadouri:a.dcm" ex_options H1 H2).
Defined.


Lemma identifier_precondition_witness :
  reaches_dispatch "" ex_fallback ∧
  eval (loadImage (Some "") ex_options) ex_fallback
  = Return (promise (ex_loader 20 "" None)) ∧
  eval (loadAndCacheImage None ex_options) ex_fallback
  = Throw loadAndCacheImage_undefined.
Proof.
  assert (reaches_dispatch "" ex_fallback) as H1
    by (vm_compute; split; [reflexivity|exact I]).
  split; [exact H1|].
  destruct (identifier_precondition (Some "") ex_options ex_fallback)
    as (_ & _ & _ & H).
  destruct (H H1) as [E _]. split.
  - rewrite E. vm_compute. reflexivity.
  - exact (proj2 (proj1 (proj2 (identifier_precondition None ex_options
                                  ex_fallback))) eq_refl).
Defined.

(** ** Further properties of the module *)

(** A string with a colon splits at its first colon. *)
Lemma has_colon_split (s : string) :
  has_colon s = true →
  ∃ pre body, s = pre +:+ String colon body ∧ has_colon pre = false.
Proof.
  induction s as [|a s IH]; simpl; [done|].
  destruct (decide (a = colon)) as [->|Hne].
  - intros _. by exists "", s.
  - intros H. destruct (IH H) as (pre & body & -> & Hpre).
    exists (String a pre), body. split; [done|]. simpl.
    by rewrite decide_False.
Qed.

Lemma scheme_of_colon_free (imageId : string) :
  has_colon (scheme_of imageId) = false.
Proof.
  destruct (has_colon imageId) eqn:H.
  - destruct (has_colon_split _ H) as (pre & body & -> & Hpre).
    by rewrite scheme_of_prefix.
  - by destruct (scheme_of_no_colon _ H) as [_ ->].
Qed.

Section MoreProperties.

Context {IImage ErrorValue ImageLoaderOptions : Type}.

Abbreviation State := (@State IImage ErrorValue ImageLoaderOptions).
Abbreviation LoaderFn := (@ImageLoaderFn ImageLoaderOptions).
Abbreviation Settlement := (@Settlement IImage ErrorValue).
Abbreviation ApiCall := (@ApiCall IImage ErrorValue ImageLoaderOptions).
Abbreviation PromiseCell := (@PromiseCell IImage ErrorValue).

Implicit Types (st : State) (imageId scheme : string)
  (options : ImageLoaderOptions) (o : Settlement)
  (loader unknownLoader : LoaderFn).

(** *** How a call ends and what it leaves *)

Lemma dispatch_eval imageId options st :
  eval (loadImageFromImageLoader imageId options) st
  = match registry_read st (scheme_of imageId) with
    | ReadLoader loader => Return (loader imageId (Some options))
    | ReadInherited => Throw (InheritedPropertyError (scheme_of imageId))
    | ReadUndefined =>
        match unknownImageLoader st with
        | Some unknownLoader => Return (unknownLoader imageId None)
        | None => Throw NoLoaderError
        end
    end.
Proof.
  unfold eval.
  destruct (registry_read st (scheme_of imageId)) as [loader| |] eqn:H;
    [|destruct (unknownImageLoader st) as [u|] eqn:Hu|].
  - apply registry_read_loader in H.
    by rewrite (dispatch_registered _ options _ _ H).
  - by rewrite (dispatch_unknown _ options _ _ H Hu).
  - by rewrite (dispatch_no_loader _ options _ H Hu).
  - by rewrite (dispatch_inherited _ options _ H).
Qed.

Lemma resolution_eval imageId options st :
  eval (loadImage (Some imageId) options) st
  = resolution_result imageId options st ∧
  eval (loadAndCacheImage (Some imageId) options) st
  = resolution_result imageId options st.
Proof.
  unfold resolution_result.
  destruct (imageCache (cache st) !! imageId) as [lo|] eqn:Hc.
  { unfold eval. by destruct (cache_hit_step _ options _ _ Hc) as [-> ->]. }
  assert (reaches_dispatch imageId st →
    let r := match registry_read st (scheme_of imageId) with
             | ReadLoader loader =>
                 Return (promise (loader imageId (Some options)))
             | ReadInherited =>
                 Throw (InheritedPropertyError (scheme_of imageId))
             | ReadUndefined =>
                 match unknownImageLoader st with
                 | Some unknownLoader =>
                     Return (promise (unknownLoader imageId None))
                 | None => Throw NoLoaderError
                 end
             end in
    eval (loadImage (Some imageId) options) st = r ∧
    eval (loadAndCacheImage (Some imageId) options) st = r) as Hdispatch.
  { intros Hd. cbn zeta. unfold eval.
    rewrite (loadImage_dispatches _ _ _ Hd).
    rewrite (loadAndCacheImage_dispatches _ _ _ Hd).
    set (s := after_cache_miss imageId st).
    change (registry_read st (scheme_of imageId))
      with (registry_read s (scheme_of imageId)).
    change (unknownImageLoader st) with (unknownImageLoader s).
    destruct (registry_read s (scheme_of imageId)) as [loader| |] eqn:H;
      [|destruct (unknownImageLoader s) as [u|] eqn:Hu|].
    - apply registry_read_loader in H.
      by rewrite (dispatch_registered _ options _ _ H).
    - by rewrite (dispatch_unknown _ options _ _ H Hu).
    - by rewrite (dispatch_no_loader _ options _ H Hu).
    - by rewrite (dispatch_inherited _ options _ H). }
  destruct (volumeCache (cache st) !! imageId) as [info|] eqn:Hv;
    [destruct (loaded (loadStatus (volume info))) eqn:Hl|].
  - unfold eval. by destruct (volume_step _ options _ _ Hc Hv Hl) as [-> ->].
  - apply Hdispatch. split; [done|by rewrite Hv].
  - apply Hdispatch. split; [done|by rewrite Hv].
Qed.

(** A registration under a scheme that is not ["__proto__"] leaves the
    reads of the other schemes as they were. *)
Lemma register_other_scheme_read scheme' scheme (imageLoader : LoaderFn) st :
  scheme ≠ "__proto__" → scheme' ≠ scheme →
  registry_read (exec (registerImageLoader scheme imageLoader) st) scheme'
  = registry_read st scheme'.
Proof.
  intros Hp Hne. unfold registry_read.
  rewrite !registerImageLoader_other by done.
  by destruct (registerImageLoader_frame scheme imageLoader st)
    as (_ & _ & _ & _ & _ & _ & ->).
Qed.

(** Registering under one scheme leaves the resolution of identifiers
    with another scheme as it was. *)
Lemma register_other_scheme_eval imageId options scheme
    (imageLoader : LoaderFn) st :
  scheme ≠ "__proto__" →
  scheme_of imageId ≠ scheme →
  let st' := exec (registerImageLoader scheme imageLoader) st in
  eval (loadImage (Some imageId) options) st'
  = eval (loadImage (Some imageId) options) st ∧
  eval (loadAndCacheImage (Some imageId) options) st'
  = eval (loadAndCacheImage (Some imageId) options) st.
Proof.
  intros Hp Hne st'.
  destruct (resolution_eval imageId options st') as [-> ->].
  destruct (resolution_eval imageId options st) as [-> ->].
  unfold resolution_result, st'.
  rewrite register_other_scheme_read by done.
  by destruct (registerImageLoader_frame scheme imageLoader st)
    as (-> & -> & _).
Qed.

(** X1.  For a defined identifier the two operations end alike: the same
    promise or the same error.  On a cache hit or a throw they also leave
    the same state; when the load returns after a cache miss,
    [loadAndCacheImage] leaves what [loadImage] leaves, followed by the
    cache write of the load object whose promise was returned. *)
Theorem loadAndCacheImage_is_loadImage_then_put imageId options st :
  eval (loadAndCacheImage (Some imageId) options) st
  = eval (loadImage (Some imageId) options) st ∧
  (is_Some (imageCache (cache st) !! imageId) ∨
   (∃ e, eval (loadImage (Some imageId) options) st = Throw e) →
   exec (loadAndCacheImage (Some imageId) options) st
   = exec (loadImage (Some imageId) options) st) ∧
  (imageCache (cache st) !! imageId = None →
   ∀ p, eval (loadImage (Some imageId) options) st = Return p →
   ∃ lo, promise lo = p ∧
     exec (loadAndCacheImage (Some imageId) options) st
     = exec (cache_putImageLoadObject imageId lo)
         (exec (loadImage (Some imageId) options) st)).
Proof.
  split.
  { by destruct (resolution_eval imageId options st) as [-> ->]. }
  unfold eval, exec.
  destruct (imageCache (cache st) !! imageId) as [lo|] eqn:Hc.
  { destruct (cache_hit_step _ options _ _ Hc) as [-> ->].
    split; [done|]. intros [=]. }
  assert (reaches_dispatch imageId st →
    ((is_Some (@None ImageLoadObject) ∨
      ∃ e, fst (loadImage (Some imageId) options st) = Throw e) →
     snd (loadAndCacheImage (Some imageId) options st)
     = snd (loadImage (Some imageId) options st)) ∧
    (None = @None ImageLoadObject →
     ∀ p, fst (loadImage (Some imageId) options st) = Return p →
     ∃ lo, promise lo = p ∧
       snd (loadAndCacheImage (Some imageId) options st)
       = snd (cache_putImageLoadObject imageId lo
                (snd (loadImage (Some imageId) options st)))))
    as Hdispatch.
  { intros Hd. rewrite (loadImage_dispatches _ _ _ Hd).
    rewrite (loadAndCacheImage_dispatches _ _ _ Hd).
    destruct (loadImageFromImageLoader _ _ _) as [[lo|e] st'];
      cbn [fst snd].
    - split; [intros [[? [=]]|[e [=]]]|].
      intros _ p [= <-]. by exists lo.
    - split; [done|]. intros _ p [=]. }
  destruct (volumeCache (cache st) !! imageId) as [info|] eqn:Hv;
    [destruct (loaded (loadStatus (volume info))) eqn:Hl|].
  - destruct (volume_step _ options _ _ Hc Hv Hl) as [-> ->].
    cbn [fst snd]. split; [intros [[? [=]]|[e [=]]]|].
    intros _ p [= <-]. by eexists.
  - apply Hdispatch. split; [done|by rewrite Hv].
  - apply Hdispatch. split; [done|by rewrite Hv].
Qed.

(** X2.  A registration is local to its scheme, the scheme ["__proto__"]
    apart.  After [registerImageLoader(scheme, loader)], whether it
    returned or threw, the registrations under every other scheme, the
    fallback and the cache are as before; and when [scheme] is not
    ["__proto__"], the registry reads as before under every other scheme
    and both operations end as before for every identifier whose scheme is
    a different one.  (A registration under ["__proto__"] replaces the
    prototype of the registry, and with it what the schemes without a
    registration inherit.) *)
Theorem registerImageLoader_is_local scheme (imageLoader : LoaderFn) st :
  let st' := exec (registerImageLoader scheme imageLoader) st in
  (∀ scheme', scheme' ≠ scheme →
     imageLoaders st' !! scheme' = imageLoaders st !! scheme') ∧
  unknownImageLoader st' = unknownImageLoader st ∧
  cache st' = cache st ∧
  (scheme ≠ "__proto__" →
   ∀ imageId options, scheme_of imageId ≠ scheme →
     registry_read st' (scheme_of imageId)
     = registry_read st (scheme_of imageId) ∧
     eval (loadImage (Some imageId) options) st'
     = eval (loadImage (Some imageId) options) st ∧
     eval (loadAndCacheImage (Some imageId) options) st'
     = eval (loadAndCacheImage (Some imageId) options) st).
Proof.
  intros st'.
  destruct (registerImageLoader_frame scheme imageLoader st)
    as (Hu & Hc & _).
  split; [|split; [done|split; [done|]]].
  - intros scheme' Hne. by apply registerImageLoader_other.
  - intros Hp imageId options Hne.
    split; [by apply register_other_scheme_read|].
    by apply register_other_scheme_eval.
Qed.

(** X3.  The scheme of an identifier never contains a colon, so a loader
    registered under a key that contains one is never selected: such a
    registration changes the outcome of no load. *)
Theorem scheme_with_colon_is_never_selected scheme
    (imageLoader : LoaderFn) st :
  has_colon scheme = true →
  ∀ imageId options,
    scheme_of imageId ≠ scheme ∧
    let st' := exec (registerImageLoader scheme imageLoader) st in
    eval (loadImage (Some imageId) options) st'
    = eval (loadImage (Some imageId) options) st ∧
    eval (loadAndCacheImage (Some imageId) options) st'
    = eval (loadAndCacheImage (Some imageId) options) st.
Proof.
  intros H imageId options.
  assert (scheme_of imageId ≠ scheme) as Hne.
  { intros <-. by rewrite scheme_of_colon_free in H. }
  split; [done|]. apply register_other_scheme_eval; [|done].
  intros ->. discriminate H.
Qed.

(** X4.  The identifier is split at its first colon: for a scheme without
    a colon and any body, colons in it included, a load of [scheme:body]
    that reaches dispatch goes to the loader registered under [scheme],
    which gets the whole identifier and the options. *)
Theorem identifier_splits_at_first_colon scheme body options st loader :
  has_colon scheme = false →
  imageLoaders st !! scheme = Some loader →
  let imageId := scheme +:+ String colon body in
  reaches_dispatch imageId st →
  scheme_of imageId = scheme ∧
  eval (loadImage (Some imageId) options) st
  = Return (promise (loader imageId (Some options))) ∧
  eval (loadAndCacheImage (Some imageId) options) st
  = Return (promise (loader imageId (Some options))).
Proof.
  intros Hs Hreg imageId [Hc Hv].
  assert (scheme_of imageId = scheme) as E by by apply scheme_of_prefix.
  split; [done|].
  destruct (resolution_eval imageId options st) as [-> ->].
  unfold resolution_result.
  rewrite Hc, E, (registry_read_registered _ _ _ Hreg).
  destruct (volumeCache (cache st) !! imageId) as [info|]; [|done].
  by rewrite Hv.
Qed.

(** X5.  The fallback loader matters only where nothing else resolves the
    identifier: when the cache holds it, a loaded volume contains it, or a
    loader is registered for its scheme, both operations end the same
    whatever the fallback slot holds. *)
Theorem fallback_only_on_registry_miss imageId options st
    (u : option LoaderFn) :
  (is_Some (imageCache (cache st) !! imageId) ∨
   (∃ info, volumeCache (cache st) !! imageId = Some info ∧
            loaded (loadStatus (volume info)) = true) ∨
   is_Some (imageLoaders st !! scheme_of imageId)) →
  eval (loadImage (Some imageId) options) (set_unknownImageLoader u st)
  = eval (loadImage (Some imageId) options) st ∧
  eval (loadAndCacheImage (Some imageId) options) (set_unknownImageLoader u st)
  = eval (loadAndCacheImage (Some imageId) options) st.
Proof.
  intros H.
  destruct (resolution_eval imageId options (set_unknownImageLoader u st))
    as [-> ->].
  destruct (resolution_eval imageId options st) as [-> ->].
  unfold resolution_result.
  change (registry_read (set_unknownImageLoader u st) (scheme_of imageId))
    with (registry_read st (scheme_of imageId)).
  cbn [cache unknownImageLoader set_unknownImageLoader].
  destruct (imageCache (cache st) !! imageId) as [lo|]; [done|].
  destruct H as [[? [=]]|[(info & -> & ->)|[loader Hl]]]; [done|].
  by rewrite (registry_read_registered _ _ _ Hl).
Qed.

(** X6.  [registerUnknownImageLoader] returns the fallback it replaces
    (none on a fresh module) and touches neither the registry nor the
    cache; handing the returned loader back restores the state. *)
Theorem registerUnknownImageLoader_returns_previous
    (imageLoader : LoaderFn) st :
  let st' := exec (registerUnknownImageLoader imageLoader) st in
  eval (registerUnknownImageLoader imageLoader) st
  = Return (unknownImageLoader st) ∧
  unknownImageLoader st' = Some imageLoader ∧
  imageLoaders st' = imageLoaders st ∧ cache st' = cache st ∧
  ∀ previous, unknownImageLoader st = Some previous →
    eval (registerUnknownImageLoader previous) st'
    = Return (Some imageLoader) ∧
    exec (registerUnknownImageLoader previous) st' = st.
Proof.
  intros st'. do 4 (split; [done|]). intros previous H.
  split; [done|]. unfold st', exec, registerUnknownImageLoader, bind, gets,
    modify, ret. cbn [snd]. destruct st. cbn in *. by rewrite H.
Qed.

(** *** Calls that throw *)

(** X7.  A call that throws has changed nothing.  It throws the parameter
    error when the identifier is [undefined], before anything is asked of
    the cache.  For a defined identifier it throws at dispatch, when all
    that has happened are the two cache lookups: the no-loader error when
    the registry reads as [undefined] under the scheme and there is no
    fallback, or the error of the engine when what the registry reads under
    the scheme is an inherited property.  Registry, fallback, cache,
    promises, jobs and events are those before the call, no loader was
    invoked and nothing was written to the cache. *)
Theorem throwing_call_changes_nothing (imageId : option string) options st
    (e : Thrown) :
  (eval (loadImage imageId options) st = Throw e →
   (imageId = None ∧ e = loadImage_undefined ∧
    exec (loadImage imageId options) st = st) ∨
   (∃ i, imageId = Some i ∧
         ((e = NoLoaderError ∧ unknownImageLoader st = None ∧
           registry_read st (scheme_of i) = ReadUndefined) ∨
          (e = InheritedPropertyError (scheme_of i) ∧
           registry_read st (scheme_of i) = ReadInherited)) ∧
         exec (loadImage imageId options) st = after_cache_miss i st)) ∧
  (eval (loadAndCacheImage imageId options) st = Throw e →
   (imageId = None ∧ e = loadAndCacheImage_undefined ∧
    exec (loadAndCacheImage imageId options) st = st) ∨
   (∃ i, imageId = Some i ∧
         ((e = NoLoaderError ∧ unknownImageLoader st = None ∧
           registry_read st (scheme_of i) = ReadUndefined) ∨
          (e = InheritedPropertyError (scheme_of i) ∧
           registry_read st (scheme_of i) = ReadInherited)) ∧
         exec (loadAndCacheImage imageId options) st
         = after_cache_miss i st)).
Proof.
  destruct imageId as [i|].
  2: { split; intros [= <-]; by left. }
  unfold eval, exec.
  destruct (imageCache (cache st) !! i) as [lo|] eqn:Hc.
  { destruct (cache_hit_step _ options _ _ Hc) as [-> ->].
    split; intros [=]. }
  assert (reaches_dispatch i st →
    (fst (loadImage (Some i) options st) = Throw e →
     ((e = NoLoaderError ∧ unknownImageLoader st = None ∧
       registry_read st (scheme_of i) = ReadUndefined) ∨
      (e = InheritedPropertyError (scheme_of i) ∧
       registry_read st (scheme_of i) = ReadInherited)) ∧
     snd (loadImage (Some i) options st) = after_cache_miss i st) ∧
    (fst (loadAndCacheImage (Some i) options st) = Throw e →
     ((e = NoLoaderError ∧ unknownImageLoader st = None ∧
       registry_read st (scheme_of i) = ReadUndefined) ∨
      (e = InheritedPropertyError (scheme_of i) ∧
       registry_read st (scheme_of i) = ReadInherited)) ∧
     snd (loadAndCacheImage (Some i) options st) = after_cache_miss i st))
    as Hdispatch.
  { intros Hd. rewrite (loadImage_dispatches _ _ _ Hd).
    rewrite (loadAndCacheImage_dispatches _ _ _ Hd).
    set (s := after_cache_miss i st).
    change (registry_read st (scheme_of i))
      with (registry_read s (scheme_of i)).
    change (unknownImageLoader st) with (unknownImageLoader s).
    destruct (registry_read s (scheme_of i)) as [loader| |] eqn:H;
      [|destruct (unknownImageLoader s) as [u|] eqn:Hu|].
    - apply registry_read_loader in H.
      rewrite (dispatch_registered _ options _ _ H). split; intros [=].
    - rewrite (dispatch_unknown _ options _ _ H Hu). split; intros [=].
    - rewrite (dispatch_no_loader _ options _ H Hu).
      split; intros [= <-]; (split; [by left|done]).
    - rewrite (dispatch_inherited _ options _ H).
      split; intros [= <-]; (split; [by right|done]). }
  destruct (volumeCache (cache st) !! i) as [info|] eqn:Hv;
    [destruct (loaded (loadStatus (volume info))) eqn:Hl|].
  - destruct (volume_step _ options _ _ Hc Hv Hl) as [-> ->].
    split; intros [=].
  - destruct Hdispatch as [H1 H2]; [split; [done|by rewrite Hv]|].
    split; intros H; right; exists i; (split; [done|]);
      [apply H1|apply H2]; done.
  - destruct Hdispatch as [H1 H2]; [split; [done|by rewrite Hv]|].
    split; intros H; right; exists i; (split; [done|]);
      [apply H1|apply H2]; done.
Qed.

(** *** What the cache keeps *)

(** The cache after a call: [loadImage] leaves it alone;
    [loadAndCacheImage] leaves it alone or adds one entry, under an
    identifier it did not hold. *)
Lemma resolution_cache_effect (imageId : option string) options st :
  cache (exec (loadImage imageId options) st) = cache st ∧
  (cache (exec (loadAndCacheImage imageId options) st) = cache st ∨
   ∃ i lo, imageId = Some i ∧ imageCache (cache st) !! i = None ∧
     cache (exec (loadAndCacheImage imageId options) st)
     = {| imageCache := <[i := lo]> (imageCache (cache st));
          volumeCache := volumeCache (cache st) |}).
Proof.
  destruct imageId as [i|]; [|by split; [|left]].
  unfold exec.
  destruct (imageCache (cache st) !! i) as [lo|] eqn:Hc.
  { destruct (cache_hit_step _ options _ _ Hc) as [-> ->].
    by split; [|left]. }
  assert (reaches_dispatch i st →
    cache (snd (loadImage (Some i) options st)) = cache st ∧
    (cache (snd (loadAndCacheImage (Some i) options st)) = cache st ∨
     ∃ i' lo, Some i = Some i' ∧ imageCache (cache st) !! i' = None ∧
       cache (snd (loadAndCacheImage (Some i) options st))
       = {| imageCache := <[i' := lo]> (imageCache (cache st));
            volumeCache := volumeCache (cache st) |})) as Hdispatch.
  { intros Hd. rewrite (loadImage_dispatches _ _ _ Hd).
    rewrite (loadAndCacheImage_dispatches _ _ _ Hd).
    destruct (dispatch_frame i options (after_cache_miss i st))
      as (_ & _ & E & _). unfold exec in E.
    destruct (loadImageFromImageLoader _ _ _) as [[lo|e] st'];
      cbn [snd] in *.
    - split; [done|]. right. exists i, lo. do 2 (split; [done|]).
      unfold exec. cbn. by rewrite E.
    - by split; [|left]. }
  destruct (volumeCache (cache st) !! i) as [info|] eqn:Hv;
    [destruct (loaded (loadStatus (volume info))) eqn:Hl|].
  - destruct (volume_step _ options _ _ Hc Hv Hl) as [-> ->].
    split; [done|]. right. by eexists i, _.
  - apply Hdispatch. split; [done|by rewrite Hv].
  - apply Hdispatch. split; [done|by rewrite Hv].
Qed.

Lemma api_step_keeps_entry (c : ApiCall) imageId (lo : ImageLoadObject) st :
  imageCache (cache st) !! imageId = Some lo →
  imageCache (cache (api_step c st)) !! imageId = Some lo.
Proof.
  intros H. destruct c as [i options|i options|scheme f|f| |h];
    cbn [api_step].
  - by destruct (resolution_cache_effect i options st) as [-> _].
  - destruct (resolution_cache_effect i options st)
      as [_ [->|(i' & lo' & -> & Hnone & ->)]]; [done|].
    cbn [imageCache]. rewrite lookup_insert_ne; [done|]. congruence.
  - by destruct (registerImageLoader_frame scheme f st) as (_ & -> & _).
  - done.
  - done.
  - destruct h as [p o|]; cbn [host_step].
    + by destruct (settle_frame p o st) as (_ & _ & -> & _).
    + by destruct (run_jobs_frame st) as (_ & _ & -> & _).
Qed.

(** X9.  The module never replaces or removes a cache entry.  Once the
    cache holds a load object for an identifier, it holds that same object
    after any run of calls of the module (loads of any identifier,
    registrations, [unregisterAllImageLoaders]) and host steps, and both
    operations keep returning its promise, whatever the registry has
    become. *)
Theorem cached_load_object_is_kept imageId (lo : ImageLoadObject) st
    (cs : list ApiCall) options :
  imageCache (cache st) !! imageId = Some lo →
  let st' := api_run cs st in
  imageCache (cache st') !! imageId = Some lo ∧
  eval (loadImage (Some imageId) options) st' = Return (promise lo) ∧
  eval (loadAndCacheImage (Some imageId) options) st' = Return (promise lo).
Proof.
  intros H st'.
  assert (imageCache (cache st') !! imageId = Some lo) as H'.
  { unfold st', api_run. clear st'. revert st H.
    induction cs as [|c cs IH]; intros st H; [done|].
    cbn [foldl]. apply IH. by apply api_step_keeps_entry. }
  split; [done|]. unfold eval.
  by destruct (cache_hit_step _ options _ _ H') as [-> ->].
Qed.

(** *** Repeated loads *)

Lemma loadImage_registered_step imageId options st loader :
  reaches_dispatch imageId st →
  imageLoaders st !! scheme_of imageId = Some loader →
  let st' := exec (loadImage (Some imageId) options) st in
  cache st' = cache st ∧ imageLoaders st' = imageLoaders st ∧
  List.filter is_loader_call (calls st')
  = List.filter is_loader_call (calls st)
    ++ [InvokeLoader (scheme_of imageId) imageId (Some options)].
Proof.
  intros Hd H st'.
  assert (st' = exec (loadImageFromImageLoader imageId options)
                  (after_cache_miss imageId st)) as ->.
  { unfold st', exec. rewrite (loadImage_dispatches _ _ _ Hd).
    by destruct (loadImageFromImageLoader _ _ _) as [[lo|e] s]. }
  destruct (dispatch_frame imageId options (after_cache_miss imageId st))
    as (-> & _ & -> & _).
  split; [done|]. split; [done|].
  change (imageLoaders st) with (imageLoaders (after_cache_miss imageId st))
    in H.
  destruct (dispatch_registered_obs _ options _ _ H) as (_ & -> & _).
  cbn [after_cache_miss log calls]. rewrite !List.filter_app. cbn.
  by rewrite !app_nil_r.
Qed.

Lemma loadAndCacheImage_registered_step imageId options st loader :
  reaches_dispatch imageId st →
  imageLoaders st !! scheme_of imageId = Some loader →
  let st' := exec (loadAndCacheImage (Some imageId) options) st in
  imageCache (cache st') !! imageId = Some (loader imageId (Some options)) ∧
  List.filter is_loader_call (calls st')
  = List.filter is_loader_call (calls st)
    ++ [InvokeLoader (scheme_of imageId) imageId (Some options)].
Proof.
  intros Hd H st'.
  change (imageLoaders st) with (imageLoaders (after_cache_miss imageId st))
    in H.
  assert (st' = exec (cache_putImageLoadObject imageId
                        (loader imageId (Some options)))
                  (exec (loadImageFromImageLoader imageId options)
                     (after_cache_miss imageId st))) as ->.
  { unfold st', exec at 1 3. rewrite (loadAndCacheImage_dispatches _ _ _ Hd).
    by rewrite (dispatch_registered _ options _ _ H). }
  match goal with
  | |- context [exec (cache_putImageLoadObject ?i ?lo) ?s] =>
      destruct (put_then_get i lo s) as [-> ->]
  end.
  split; [done|].
  destruct (dispatch_registered_obs _ options _ _ H) as (_ & -> & _).
  cbn [after_cache_miss log calls]. rewrite !List.filter_app. cbn.
  by rewrite !app_nil_r.
Qed.

Lemma cache_hits_invoke_no_loader imageId options st (lo : ImageLoadObject)
    (n : nat) :
  imageCache (cache st) !! imageId = Some lo →
  List.filter is_loader_call
    (calls (api_run (replicate n (DoLoadAndCacheImage (Some imageId) options))
              st))
  = List.filter is_loader_call (calls st).
Proof.
  revert st. induction n as [|n IH]; intros st H; [done|].
  cbn [replicate api_run foldl api_step].
  change (foldl _ ?s ?l) with (api_run l s).
  unfold exec. destruct (cache_hit_step _ options _ _ H) as [_ ->].
  cbn [snd]. rewrite IH by done.
  cbn [log calls]. rewrite List.filter_app. cbn. by rewrite app_nil_r.
Qed.

(** X8.  [loadImage] does not remember what it dispatched: [n] calls for
    an identifier that is neither cached nor in a loaded volume invoke the
    registered loader [n] times.  [loadAndCacheImage] dispatches the first
    time only: any number of calls, one at least, invoke it once. *)
Theorem repeated_loads imageId options st loader (n : nat) :
  reaches_dispatch imageId st →
  imageLoaders st !! scheme_of imageId = Some loader →
  List.filter is_loader_call
    (calls (api_run (replicate n (DoLoadImage (Some imageId) options)) st))
  = List.filter is_loader_call (calls st)
    ++ replicate n (InvokeLoader (scheme_of imageId) imageId (Some options)) ∧
  List.filter is_loader_call
    (calls (api_run (replicate (S n)
                       (DoLoadAndCacheImage (Some imageId) options)) st))
  = List.filter is_loader_call (calls st)
    ++ [InvokeLoader (scheme_of imageId) imageId (Some options)].
Proof.
  intros Hd H. split.
  - revert st Hd H. induction n as [|n IH]; intros st Hd H.
    + cbn. by rewrite app_nil_r.
    + cbn [replicate api_run foldl api_step].
      change (foldl _ ?s ?l) with (api_run l s).
      destruct (loadImage_registered_step _ options _ _ Hd H)
        as (Ec & Er & Ecalls).
      rewrite IH.
      * rewrite Ecalls, <- app_assoc. done.
      * unfold reaches_dispatch. by rewrite Ec.
      * unfold ImageLoaderFn in *. by rewrite Er.
  - cbn [replicate api_run foldl api_step].
    change (foldl _ ?s ?l) with (api_run l s).
    destruct (loadAndCacheImage_registered_step _ options _ _ Hd H)
      as [Ec Ecalls].
    by rewrite (cache_hits_invoke_no_loader _ _ _ _ _ Ec).
Qed.

(** *** Handler pairs and events *)

(** Both operations keep what the steps they are made of keep: logging a
    call that is not a scheme-loader invocation, dispatch, and the cache
    write. *)
Lemma resolution_preserves (P : State → Prop) :
  (∀ c s, is_scheme_loader_call c = false → P s → P (log c s)) →
  (∀ i options s, P s → P (exec (loadImageFromImageLoader i options) s)) →
  (∀ i lo s, P s → P (exec (cache_putImageLoadObject i lo) s)) →
  ∀ (imageId : option string) options st, P st →
    P (exec (loadImage imageId options) st) ∧
    P (exec (loadAndCacheImage imageId options) st).
Proof.
  intros Hlog Hdisp Hput [i|] options st HP; [|done].
  unfold exec.
  destruct (imageCache (cache st) !! i) as [lo|] eqn:Hc.
  { destruct (cache_hit_step _ options _ _ Hc) as [-> ->].
    split; by apply Hlog. }
  assert (P (after_cache_miss i st)) as Hmiss
    by (apply Hlog; [done|]; by apply Hlog).
  assert (reaches_dispatch i st →
          P (snd (loadImage (Some i) options st)) ∧
          P (snd (loadAndCacheImage (Some i) options st))) as Hdispatch.
  { intros Hd. rewrite (loadImage_dispatches _ _ _ Hd).
    rewrite (loadAndCacheImage_dispatches _ _ _ Hd).
    pose proof (Hdisp i options _ Hmiss) as HP'. unfold exec in HP'.
    destruct (loadImageFromImageLoader _ _ _) as [[lo|e] s];
      cbn [snd] in *; [|done].
    split; [done|]. by apply Hput. }
  destruct (volumeCache (cache st) !! i) as [info|] eqn:Hv;
    [destruct (loaded (loadStatus (volume info))) eqn:Hl|].
  - destruct (volume_step _ options _ _ Hc Hv Hl) as [-> ->].
    cbn [snd]. split; [by apply Hlog|]. apply Hput. by apply Hlog.
  - apply Hdispatch. split; [done|by rewrite Hv].
  - apply Hdispatch. split; [done|by rewrite Hv].
Qed.

(** Replacing the cell of one promise changes the count of waiting handler
    pairs by the difference of the two cells. *)
Lemma waiting_insert (m : gmap PromiseRef PromiseCell) (p : PromiseRef)
    (c' : PromiseCell) :
  sum_list_with (λ kv : PromiseRef * PromiseCell,
                   length (reactions (snd kv)))
    (map_to_list (<[p:=c']> m))
  + length (reactions (default {| settled := None; reactions := [] |}
                         (m !! p)))
  = sum_list_with (λ kv : PromiseRef * PromiseCell,
                     length (reactions (snd kv)))
      (map_to_list m)
    + length (reactions c').
Proof.
  destruct (m !! p) as [c|] eqn:H.
  - rewrite <- (insert_delete_eq m).
    rewrite <- (insert_delete_id m p c H) at 2.
    rewrite !map_to_list_insert by apply lookup_delete_eq.
    cbn. lia.
  - rewrite map_to_list_insert by done. cbn. lia.
Qed.

Lemma pending_then (p : PromiseRef) (r : Reaction) st :
  let st' := exec (promise_then p r) st in
  length (events st') + length (jobs st') + pending_reactions st'
  = S (length (events st) + length (jobs st) + pending_reactions st).
Proof.
  destruct (settled (cell_of p st)) as [o|] eqn:H.
  - rewrite (then_settled _ _ o) by done. unfold pending_reactions.
    cbn [events jobs promises set_jobs log]. rewrite length_app. cbn. lia.
  - rewrite then_pending by done. unfold pending_reactions.
    cbn [events jobs promises set_promises log].
    pose proof (waiting_insert (promises st) p
                  {| settled := None;
                     reactions := reactions (cell_of p st) ++ [r] |}) as E.
    fold (cell_of p st) in E. cbn [reactions] in E.
    rewrite length_app in E. cbn in E. lia.
Qed.

Lemma pending_settle (p : PromiseRef) o st :
  let st' := settle p o st in
  length (events st') + length (jobs st') + pending_reactions st'
  = length (events st) + length (jobs st) + pending_reactions st.
Proof.
  destruct (settled (cell_of p st)) as [o'|] eqn:H.
  - by rewrite (settle_settled _ o').
  - rewrite settle_pending by done. unfold pending_reactions.
    cbn [events jobs promises set_promises set_jobs].
    pose proof (waiting_insert (promises st) p
                  {| settled := Some o; reactions := [] |}) as E.
    fold (cell_of p st) in E. cbn [reactions] in E.
    rewrite length_app, length_fmap. cbn in E. lia.
Qed.

Lemma pending_run_jobs st :
  let st' := run_jobs st in
  length (events st') + length (jobs st') + pending_reactions st'
  = length (events st) + length (jobs st) + pending_reactions st.
Proof.
  cbn zeta. rewrite run_jobs_spec. unfold pending_reactions.
  cbn [events jobs promises set_events set_jobs].
  rewrite length_app, length_fmap. cbn. lia.
Qed.

Lemma accounted_dispatch imageId options st :
  handlers_accounted st →
  handlers_accounted (exec (loadImageFromImageLoader imageId options) st).
Proof.
  unfold handlers_accounted, scheme_dispatches. intros Hacc.
  destruct (registry_read st (scheme_of imageId)) as [loader| |] eqn:H;
    [|destruct (unknownImageLoader st) as [u|] eqn:Hu|].
  - apply registry_read_loader in H.
    destruct (dispatch_registered_obs _ options _ _ H) as (_ & Ecalls & _).
    rewrite Ecalls. unfold exec at 1 2 3.
    rewrite (dispatch_registered _ options _ _ H). cbn [snd].
    rewrite pending_then. unfold pending_reactions in *.
    cbn [events jobs promises log]. rewrite List.filter_app, length_app.
    cbn. lia.
  - unfold exec. rewrite (dispatch_unknown _ options _ _ H Hu).
    unfold pending_reactions in *. cbn [snd events jobs promises log calls].
    rewrite List.filter_app, length_app. cbn. lia.
  - unfold exec. by rewrite (dispatch_no_loader _ options _ H Hu).
  - unfold exec. by rewrite (dispatch_inherited _ options _ H).
Qed.

Lemma accounted_step (c : ApiCall) st :
  handlers_accounted st → handlers_accounted (api_step c st).
Proof.
  intros Hacc. destruct c as [i options|i options|scheme f|f| |h];
    cbn [api_step]; try done.
  3: { unfold handlers_accounted, scheme_dispatches, pending_reactions in *.
       by destruct (registerImageLoader_frame scheme f st)
         as (_ & _ & -> & -> & -> & -> & _). }
  1, 2: refine (_ (resolution_preserves handlers_accounted _ _ _ i options
                     st Hacc)); [tauto|..].
  1, 4: intros c s Hc; unfold handlers_accounted, scheme_dispatches,
          pending_reactions; cbn [events jobs promises calls log];
          rewrite List.filter_app, length_app; cbn; rewrite Hc; cbn; lia.
  1, 3: intros; by apply accounted_dispatch.
  1, 2: intros j lo s; unfold handlers_accounted, scheme_dispatches,
          pending_reactions; cbn; rewrite List.filter_app, length_app;
          cbn; lia.
  destruct h as [p o|]; cbn [host_step]; unfold handlers_accounted,
    scheme_dispatches in *.
  - rewrite pending_settle.
    by destruct (settle_frame p o st) as (_ & _ & _ & _ & ->).
  - rewrite pending_run_jobs.
    by destruct (run_jobs_frame st) as (_ & _ & _ & ->).
Qed.

(** X10.  A count over all loads: the events emitted, the jobs queued and
    the handler pairs waiting on promises add up to the invocations of
    scheme-registered loaders.  If the count holds in a state (it does in
    the initial one), it holds after any run of calls of the module and
    steps of the host (settling promises, running jobs); so the events
    emitted never outnumber the invocations of scheme-registered
    loaders. *)
Theorem handlers_stay_accounted st (cs : list ApiCall) :
  handlers_accounted st →
  handlers_accounted (api_run cs st) ∧
  length (events (api_run cs st)) ≤ scheme_dispatches (api_run cs st).
Proof.
  intros H.
  assert (handlers_accounted (api_run cs st)) as H'.
  { unfold api_run. revert st H. induction cs as [|c cs IH]; intros st H;
      [done|]. cbn [foldl]. apply IH. by apply accounted_step. }
  split; [done|]. unfold handlers_accounted in H'. lia.
Qed.

End MoreProperties.

(** ** The tutorial: which files are loaded, and how a failure ends it *)

(** X11.  The file filter [dcm$] with flag [i] accepts exactly the names
    whose last three characters are d, c, m in either case: no dot is
    asked for, and a name of fewer than three characters never passes. *)
Theorem regex_dcm_test_spec (s : string) :
  regex_dcm_test s = true ↔
  ∃ pre a b c, s = pre +:+ String a (String b (String c "")) ∧
    (a = "d" ∨ a = "D")%char ∧ (b = "c" ∨ b = "C")%char ∧
    (c = "m" ∨ c = "M")%char.
Proof.
  assert (∀ lower upper a, matches_ignoring_case lower upper a = true
            ↔ a = lower ∨ a = upper) as Hci.
  { intros lower upper a. unfold matches_ignoring_case.
    rewrite orb_true_iff, !bool_decide_eq_true. done. }
  split.
  - induction s as [|x s IH]; [done|]. cbn [regex_dcm_test].
    intros [Hhere|Hrest]%orb_true_iff.
    + destruct s as [|b [|c [|? ?]]]; try done. cbn in Hhere.
      apply andb_true_iff in Hhere as [[Ha Hb]%andb_true_iff Hc].
      exists "", x, b, c. by rewrite <- !Hci.
    + destruct (IH Hrest) as (pre & a & b & c & -> & H).
      by exists (String x pre), a, b, c.
  - intros (pre & a & b & c & -> & Ha & Hb & Hc).
    induction pre as [|x pre IH]; cbn [regex_dcm_test String.append].
    + apply orb_true_iff. left. cbn.
      rewrite !andb_true_iff, !Hci. done.
    + apply orb_true_iff. by right.
Qed.

Section LocalFilesProperties.

Context {FileManager : Type}.
Variable h : TutorialHost FileManager.

Implicit Types (w : TutorialWorld FileManager) (files : list File)
  (imageIds : list string).

Lemma collect_imageIds_trace files w :
  trace (snd (collect_imageIds h files w))
  = trace w ++ (FileManagerAdd <$> List.filter is_dcm_file files) ∧
  length (fst (collect_imageIds h files w))
  = length (List.filter is_dcm_file files) ∧
  collect_imageIds h (List.filter is_dcm_file files) w
  = collect_imageIds h files w.
Proof.
  revert w. induction files as [|file files IH]; intros w.
  - cbn. by rewrite app_nil_r.
  - cbn [collect_imageIds List.filter].
    change (is_dcm_file file) with (regex_dcm_test (name file)).
    destruct (regex_dcm_test (name file)) eqn:Hf; [|apply IH].
    cbn [collect_imageIds]. rewrite Hf.
    destruct (fileManager_add h file (fileManager w)) as [imageId fm].
    specialize (IH {| fileManager := fm;
                      trace := trace w ++ [FileManagerAdd file] |}).
    destruct IH as (IH1 & IH2 & IH3). rewrite IH3.
    destruct (collect_imageIds h files _) as [ids w'].
    cbn [fst snd trace length fmap list_fmap] in *.
    rewrite IH1, IH2, <- app_assoc. done.
Qed.

Lemma prefetch_fulfilled imageIds w :
  Forall (λ imageId, wadouri_loadImage h imageId = None) imageIds →
  prefetchMetadataInformation h imageIds w
  = (Return tt, {| fileManager := fileManager w;
                   trace := trace w ++ (WadouriLoadImage <$> imageIds) |}).
Proof.
  revert w. induction imageIds as [|imageId rest IH]; intros w Hall.
  - cbn. rewrite app_nil_r. by destruct w.
  - inversion Hall as [|? ? Hok Hrest]; subst.
    cbn [prefetchMetadataInformation]. rewrite Hok, IH by done.
    cbn. by rewrite <- app_assoc.
Qed.

Lemma prefetch_rejected (loaded_ids : list string) (bad : string)
    (rest : list string) (e : Thrown) w :
  Forall (λ imageId, wadouri_loadImage h imageId = None) loaded_ids →
  wadouri_loadImage h bad = Some e →
  prefetchMetadataInformation h (loaded_ids ++ bad :: rest) w
  = (Throw e, {| fileManager := fileManager w;
                 trace := trace w
                          ++ (WadouriLoadImage <$> loaded_ids ++ [bad]) |}).
Proof.
  revert w. induction loaded_ids as [|imageId ids IH]; intros w Hall Hbad.
  - cbn. by rewrite Hbad.
  - inversion Hall as [|? ? Hok Hrest]; subst.
    cbn [prefetchMetadataInformation app]. rewrite Hok, IH by done.
    cbn. by rewrite <- app_assoc.
Qed.

(** X12.  When every load is fulfilled, the document has a [content]
    element and [setStack] is fulfilled, [loadImageFromLocalFiles] is
    fulfilled with one identifier per file whose name passes the filter.
    The calls it makes are, in this order: [fileManager.add] for exactly
    those files, in the order of the list; one [wadouri.loadImage] per
    identifier, in order; then the calls of [loadByStack], with
    [setStack(imageIds, 0)] and [render] last.  Files that do not pass are
    never handed to the file manager. *)
Theorem loadImageFromLocalFiles_fulfilled files w :
  let imageIds := fst (collect_imageIds h files w) in
  Forall (λ imageId, wadouri_loadImage h imageId = None) imageIds →
  has_content h = true →
  viewport_setStack h imageIds = None →
  fst (loadImageFromLocalFiles h files w) = Return imageIds ∧
  length imageIds = length (List.filter is_dcm_file files) ∧
  trace (snd (loadImageFromLocalFiles h files w))
  = trace w ++ (FileManagerAdd <$> List.filter is_dcm_file files)
    ++ (WadouriLoadImage <$> imageIds) ++ loadByStack_calls imageIds.
Proof.
  intros imageIds Hall Hcontent Hstack.
  destruct (collect_imageIds_trace files w) as (Htrace & Hlen & _).
  unfold loadImageFromLocalFiles. subst imageIds.
  destruct (collect_imageIds h files w) as [ids w1]. cbn [fst snd] in *.
  rewrite (prefetch_fulfilled _ _ Hall).
  unfold loadByStack. rewrite Hcontent, Hstack. cbn.
  split; [done|]. split; [done|]. rewrite Htrace.
  rewrite <- !app_assoc. done.
Qed.

(** X13.  The loads are awaited one at a time and the first rejection ends
    the function: if the loads of the identifiers before [bad] are
    fulfilled and the load of [bad] is rejected with [e], the function is
    rejected with [e]; [wadouri.loadImage] was called for the identifiers
    up to [bad] and for none after it, and neither the document nor a
    rendering engine was touched.  The files had all been handed to the
    file manager before the first load. *)
Theorem loadImageFromLocalFiles_rejected_load files w
    (loaded_ids : list string) (bad : string) (rest : list string)
    (e : Thrown) :
  fst (collect_imageIds h files w) = loaded_ids ++ bad :: rest →
  Forall (λ imageId, wadouri_loadImage h imageId = None) loaded_ids →
  wadouri_loadImage h bad = Some e →
  fst (loadImageFromLocalFiles h files w) = Throw e ∧
  trace (snd (loadImageFromLocalFiles h files w))
  = trace w ++ (FileManagerAdd <$> List.filter is_dcm_file files)
    ++ (WadouriLoadImage <$> loaded_ids ++ [bad]).
Proof.
  intros Hids Hall Hbad.
  destruct (collect_imageIds_trace files w) as (Htrace & _ & _).
  unfold loadImageFromLocalFiles.
  destruct (collect_imageIds h files w) as [ids w1]. cbn [fst snd] in *.
  subst ids. rewrite (prefetch_rejected _ _ _ _ _ Hall Hbad).
  cbn. split; [done|]. rewrite Htrace, <- app_assoc. done.
Qed.

(** X14.  A failure to show the stack comes after all the loads and ends
    the function without a render.  Without a [content] element the
    function is rejected with a type error at [content.appendChild], before
    any rendering engine is made; if [setStack] is rejected with [e], the
    function is rejected with [e] and [render] is not called. *)
Theorem loadImageFromLocalFiles_display_failure files w :
  let imageIds := fst (collect_imageIds h files w) in
  let before := trace w ++ (FileManagerAdd <$> List.filter is_dcm_file files)
                ++ (WadouriLoadImage <$> imageIds) in
  Forall (λ imageId, wadouri_loadImage h imageId = None) imageIds →
  (has_content h = false →
   fst (loadImageFromLocalFiles h files w) = Throw TypeError_null ∧
   trace (snd (loadImageFromLocalFiles h files w))
   = before ++ [GetElementById "content"; CreateElement "div"]) ∧
  (∀ e, has_content h = true → viewport_setStack h imageIds = Some e →
   fst (loadImageFromLocalFiles h files w) = Throw e ∧
   trace (snd (loadImageFromLocalFiles h files w))
   = before ++ removelast (loadByStack_calls imageIds)).
Proof.
  intros imageIds before Hall.
  destruct (collect_imageIds_trace files w) as (Htrace & _ & _).
  unfold loadImageFromLocalFiles. subst imageIds before.
  destruct (collect_imageIds h files w) as [ids w1]. cbn [fst snd] in *.
  rewrite (prefetch_fulfilled _ _ Hall). unfold loadByStack. split.
  - intros ->. cbn. split; [done|]. rewrite Htrace, <- !app_assoc. done.
  - intros e -> ->. cbn. split; [done|].
    rewrite Htrace, <- !app_assoc. done.
Qed.

(** X15.  With no file that passes the filter (an empty list included), in
    a document that has the [content] element and with a viewport whose
    [setStack([], 0)] is fulfilled: the file manager is left alone and
    nothing is loaded, but the stack is still shown; the function goes
    through [loadByStack] with the empty stack, calls [setStack([], 0)] and
    [render], and is fulfilled with the empty list. *)
Theorem loadImageFromLocalFiles_nothing_selected files w :
  Forall (λ file, regex_dcm_test (name file) = false) files →
  has_content h = true →
  viewport_setStack h [] = None →
  loadImageFromLocalFiles h files w
  = (Return [], {| fileManager := fileManager w;
                   trace := trace w ++ loadByStack_calls [] |}).
Proof.
  intros Hnone Hcontent Hstack.
  assert (collect_imageIds h files w = ([], w)) as E.
  { clear Hcontent Hstack. induction files as [|file files IH]; [done|].
    inversion Hnone as [|? ? Hf Hrest]; subst.
    cbn [collect_imageIds]. rewrite Hf. by apply IH. }
  unfold loadImageFromLocalFiles. rewrite E. cbn.
  unfold loadByStack. rewrite Hcontent, Hstack.
  unfold tlog, loadByStack_calls. cbn. by rewrite <- !app_assoc.
Qed.

End LocalFilesProperties.

(** ** The tutorial: reading raw data, one file at a time *)


(** ** mouseDownActivate: when a measurement is started *)

(** X17.  [mouseDownActivate] starts a measurement only when nothing
    stands in the way: [addNewMeasurement] is called exactly when no tool
    holds the lock, an active tool is found for the event, no multi-part
    tool is active and the tool has the method; it is then called once, on
    that tool, with the event and ['mouse'].  While a tool holds the lock
    not even the active tool is looked up; otherwise it is looked up
    once. *)
Theorem mouseDownActivate_guards {Evt : Type}
    (getActiveToolForMouseEvent : Evt → option ToolInstance)
    (state : ToolsState) (evt : Evt) :
  let calls := mouseDownActivate getActiveToolForMouseEvent state evt in
  (∀ tool evt' interactionType,
     AddNewMeasurement tool evt' interactionType ∈ calls ↔
     isToolLocked state = false ∧ isMultiPartToolActive state = false ∧
     getActiveToolForMouseEvent evt = Some tool ∧
     has_addNewMeasurement tool = true ∧
     evt' = evt ∧ interactionType = "mouse") ∧
  (isToolLocked state = true → calls = []) ∧
  (isToolLocked state = false →
   take 1 calls = [GetActiveToolForMouseEvent evt] ∧ length calls ≤ 2).
Proof.
  unfold mouseDownActivate.
  destruct (isToolLocked state).
  { cbn. split; [|by split]. intros tool evt' k. rewrite elem_of_nil.
    split; [done|]. by intros (? & _). }
  destruct (getActiveToolForMouseEvent evt) as [t|].
  2: { cbn. split; [|split; [done|intros _; split; [done|lia]]].
       intros tool evt' k. rewrite elem_of_cons, elem_of_nil.
       split; [by intros [|]|]. by intros (_ & _ & ? & _). }
  destruct (isMultiPartToolActive state).
  { cbn. split; [|split; [done|intros _; split; [done|lia]]].
    intros tool evt' k. rewrite elem_of_cons, elem_of_nil.
    split; [by intros [|]|]. by intros (_ & ? & _). }
  destruct (has_addNewMeasurement t) eqn:Hm.
  - cbn. split; [|split; [done|intros _; split; [done|lia]]].
    intros tool evt' k. rewrite !elem_of_cons, elem_of_nil. split.
    + intros [H|[H|[]]]; [done|]. injection H as -> -> ->. done.
    + intros (_ & _ & [= ->] & _ & -> & ->). right. by left.
  - cbn. split; [|split; [done|intros _; split; [done|lia]]].
    intros tool evt' k. rewrite elem_of_cons, elem_of_nil.
    split; [by intros [|]|]. intros (_ & _ & [= ->] & H & _). congruence.
Qed.

(** ** The tutorial: where the form goes and who listens *)

(** Induction over the tree of elements. *)
Lemma Element_tree_ind (P : Element → Prop) :
  (∀ tag id attrs children,
     Forall P children → P (Elem tag id attrs children)) →
  ∀ e, P e.
Proof.
  intros H. fix IH 1. intros [tag id attrs children]. apply H.
  induction children as [|c children IHc]; constructor; [apply IH|exact IHc].
Qed.

Lemma getElementById_unfold (id : string) tag eid attrs children :
  getElementById id (Elem tag eid attrs children)
  = if decide (eid = Some id) then Some (Elem tag eid attrs children)
    else first_by_id id children.
Proof. reflexivity. Qed.

Lemma appendChild_at_unfold (id : string) (child : Element) tag eid attrs
    children :
  appendChild_at id child (Elem tag eid attrs children)
  = if decide (eid = Some id) then Elem tag eid attrs (children ++ [child])
    else Elem tag eid attrs (append_in_children id child children).
Proof. reflexivity. Qed.

Lemma first_by_id_snoc (id : string) (l : list Element) (c : Element) :
  first_by_id id (l ++ [c])
  = match first_by_id id l with
    | Some r => Some r
    | None => getElementById id c
    end.
Proof.
  induction l as [|x l IH]; cbn [first_by_id app].
  - by destruct (getElementById id c).
  - by destruct (getElementById id x).
Qed.

(** What [getElementById] finds has the id asked for. *)
Lemma getElementById_id (id : string) (e r : Element) :
  getElementById id e = Some r → element_id r = Some id.
Proof.
  revert r. induction e as [tag eid attrs children IH] using Element_tree_ind.
  intros r. rewrite getElementById_unfold.
  destruct (decide (eid = Some id)) as [->|_]; [by intros [= <-]|].
  induction children as [|c children IHc]; cbn [first_by_id]; [done|].
  inversion IH as [|? ? Hc Hrest]; subst.
  destruct (getElementById id c) as [r'|] eqn:E.
  - intros [= <-]. by apply Hc.
  - by apply IHc.
Qed.

(** The element the child is appended to is found again, with the child as
    its last child. *)
Lemma getElementById_appendChild_at (id : string) (child e : Element)
    tag eid attrs children :
  getElementById id e = Some (Elem tag eid attrs children) →
  getElementById id (appendChild_at id child e)
  = Some (Elem tag eid attrs (children ++ [child])).
Proof.
  revert tag eid attrs children.
  induction e as [t i a ch IH] using Element_tree_ind.
  intros tag eid attrs children.
  rewrite getElementById_unfold, appendChild_at_unfold.
  destruct (decide (i = Some id)) as [->|Hne].
  - intros [= <- <- <- <-]. rewrite getElementById_unfold.
    by rewrite decide_True.
  - rewrite getElementById_unfold, decide_False by done.
    induction ch as [|c ch IHc]; cbn [first_by_id append_in_children];
      [done|].
    inversion IH as [|? ? Hc Hrest]; subst.
    destruct (getElementById id c) as [r|] eqn:E.
    + intros [= ->]. cbn [first_by_id]. by rewrite (Hc _ _ _ _ eq_refl).
    + intros H. cbn [first_by_id]. rewrite E. by apply IHc.
Qed.

(** An id the appended subtree holds is found afterwards. *)
Lemma appended_id_is_found (id id' : string) (child e : Element) :
  is_Some (getElementById id e) →
  is_Some (getElementById id' child) →
  is_Some (getElementById id' (appendChild_at id child e)).
Proof.
  intros He Hchild. revert He.
  induction e as [t i a ch IH] using Element_tree_ind.
  rewrite getElementById_unfold, appendChild_at_unfold.
  destruct (decide (i = Some id)) as [->|Hne].
  - intros _. rewrite getElementById_unfold.
    destruct (decide (Some id = Some id')); [done|].
    rewrite first_by_id_snoc. by destruct (first_by_id id' ch).
  - rewrite getElementById_unfold.
    destruct (decide (i = Some id')); [done|].
    induction ch as [|c ch IHc]; cbn [first_by_id append_in_children].
    + by intros [? [=]].
    + inversion IH as [|? ? Hc Hrest]; subst.
      destruct (getElementById id c) as [r|] eqn:E.
      * intros _. cbn [first_by_id].
        destruct (Hc (ltac:(done))) as [r' ->]. done.
      * intros H. cbn [first_by_id].
        destruct (getElementById id' c); [done|]. by apply IHc.
Qed.

(** An id the document did not hold is found where the appended subtree
    has it. *)
Lemma appended_id_is_new (id id' : string) (child e : Element) :
  is_Some (getElementById id e) →
  getElementById id' e = None →
  getElementById id' (appendChild_at id child e) = getElementById id' child.
Proof.
  induction e as [t i a ch IH] using Element_tree_ind.
  rewrite !getElementById_unfold, appendChild_at_unfold.
  destruct (decide (i = Some id')) as [|Hne']; [done|].
  destruct (decide (i = Some id)) as [->|Hne].
  - intros _ Hnone. rewrite getElementById_unfold, decide_False by done.
    by rewrite first_by_id_snoc, Hnone.
  - rewrite getElementById_unfold, decide_False by done.
    induction ch as [|c ch IHc]; cbn [first_by_id append_in_children].
    + by intros [? [=]].
    + inversion IH as [|? ? Hc Hrest]; subst.
      destruct (getElementById id' c) as [r'|] eqn:E'; [done|].
      destruct (getElementById id c) as [r|] eqn:E.
      * intros _ Hnone. cbn [first_by_id].
        rewrite (Hc (ltac:(done)) eq_refl), Hnone.
        by destruct (getElementById id' child).
      * intros H Hnone. cbn [first_by_id]. rewrite E'. by apply IHc.
Qed.

(** X18.  [setupUI] fails in one way only.  Without an element with id
    [content] it throws ['No Content'], having attached nothing: the
    document is as before and no listener is registered.  With one it
    returns normally: the form, holding the file input, is the last child of
    that element, and one [change] listener is registered, on an element
    whose id is [selectFileId].  ['No Select button'] is never thrown. *)
Theorem setupUI_outcome (document : Element) :
  (getElementById "content" document = None →
   setupUI document = (Throw (JsError "No Content"), document, [])) ∧
  (∀ tag eid attrs children,
     getElementById "content" document = Some (Elem tag eid attrs children) →
     ∃ selectButton,
       setupUI document
       = (Return tt, appendChild_at "content" form document,
          [(selectButton, "change")]) ∧
       element_id selectButton = Some "selectFileId" ∧
       getElementById "content" (appendChild_at "content" form document)
       = Some (Elem tag eid attrs (children ++ [form]))) ∧
  fst (fst (setupUI document)) ≠ Throw (JsError "No Select button").
Proof.
  assert (is_Some (getElementById "content" document) →
          ∃ selectButton,
            getElementById "selectFileId"
              (appendChild_at "content" form document) = Some selectButton)
    as Hfound.
  { intros H. by apply appended_id_is_found. }
  unfold setupUI. split; [|split].
  - by intros ->.
  - intros tag eid attrs children Hc. rewrite Hc.
    destruct Hfound as [b Hb]; [by rewrite Hc|]. rewrite Hb. exists b.
    split; [done|]. split; [by apply (getElementById_id _ _ _ Hb)|].
    by apply getElementById_appendChild_at.
  - destruct (getElementById "content" document) as [c|] eqn:Hc; [|done].
    destruct Hfound as [b ->]; done.
Qed.

(** X19.  In a document that has a [content] element and no element with
    id [selectFileId], the listener is registered on the input [setupUI]
    has just created. *)
Theorem setupUI_listens_on_new_input (document : Element) :
  is_Some (getElementById "content" document) →
  getElementById "selectFileId" document = None →
  setupUI document
  = (Return tt, appendChild_at "content" form document,
     [(formInput, "change")]).
Proof.
  intros Hc Hnone. unfold setupUI. destruct Hc as [c Hc]. rewrite Hc.
  rewrite appended_id_is_new by (by rewrite ?Hc). done.
Qed.

(** ** The further properties at concrete inputs *)

Lemma loadAndCacheImage_is_loadImage_then_put_witness :
  imageCache (cache ex_registered) !! "wadouri:a.dcm" = None ∧
  eval (loadImage (Some "wadouri:a.dcm") ex_options) ex_registered
  = Return 10 ∧
  ∃ lo, promise lo = 10 ∧
    exec (loadAndCacheImage (Some "wadouri:a.dcm") ex_options) ex_registered
    = exec (cache_putImageLoadObject "wadouri:a.dcm" lo)
        (exec (loadImage (Some "wadouri:a.dcm") ex_options) ex_registered).
Proof.
  assert (imageCache (cache ex_registered) !! "wadouri:a.dcm" = None) as H1
    by (vm_compute; reflexivity).
  assert (eval (loadImage (Some "wadouri:a.dcm") ex_options) ex_registered
          = Return 10) as H2 by (vm_compute; reflexivity).
  split; [exact H1|]. split; [exact H2|].
  exact (proj2 (proj2 (loadAndCacheImage_is_loadImage_then_put
                         "wadouri:a.dcm" ex_options ex_registered))
           H1 10 H2).
Defined.

Lemma registerImageLoader_is_local_witness :
  "http" ≠ "__proto__" ∧
  scheme_of "wadouri:a.dcm" ≠ "http" ∧
  eval (loadImage (Some "wadouri:a.dcm") ex_options)
    (exec (registerImageLoader "http" (ex_loader 30)) ex_registered)
  = eval (loadImage (Some "wadouri:a.dcm") ex_options) ex_registered.
Proof.
  assert ("http" ≠ "__proto__") as H0 by discriminate.
  assert (scheme_of "wadouri:a.dcm" ≠ "http") as H1
    by (vm_compute; discriminate).
  split; [exact H0|]. split; [exact H1|].
  destruct (registerImageLoader_is_local "http" (ex_loader 30) ex_registered)
    as (_ & _ & _ & H).
  exact (proj1 (proj2 (H H0 "wadouri:a.dcm" ex_options H1))).
Defined.

Lemma scheme_with_colon_is_never_selected_witness :
  has_colon "a:b" = true ∧
  eval (loadImage (Some "a:b:c") ex_options)
    (exec (registerImageLoader "a:b" (ex_loader 30)) ex_fallback)
  = eval (loadImage (Some "a:b:c") ex_options) ex_fallback.
Proof.
  split; [reflexivity|].
  exact (proj1 (proj2 (scheme_with_colon_is_never_selected "a:b"
                         (ex_loader 30) ex_fallback eq_refl
                         "a:b:c" ex_options))).
Defined.

Lemma identifier_splits_at_first_colon_witness :
  has_colon "wadouri" = false ∧
  imageLoaders ex_registered !! "wadouri" = Some (ex_loader 10) ∧
  reaches_dispatch "wadouri:http://host:8080/a.dcm" ex_registered ∧
  scheme_of "wadouri:http://host:8080/a.dcm" = "wadouri" ∧
  eval (loadImage (Some "wadouri:http://host:8080/a.dcm") ex_options)
    ex_registered
  = Return 10.
Proof.
  assert (imageLoaders ex_registered !! "wadouri" = Some (ex_loader 10)) as H1
    by (vm_compute; reflexivity).
  assert (reaches_dispatch "wadouri:http://host:8080/a.dcm" ex_registered)
    as H2 by (vm_compute; split; [reflexivity|exact I]).
  split; [reflexivity|]. split; [exact H1|]. split; [exact H2|].
  destruct (identifier_splits_at_first_colon "wadouri" "http://host:8080/a.dcm"
              ex_options ex_registered (ex_loader 10) eq_refl H1 H2)
    as (E1 & E2 & _).
  split; [exact E1|exact E2].
Defined.

Lemma fallback_only_on_registry_miss_witness :
  is_Some (imageLoaders ex_registered !! scheme_of "wadouri:a.dcm") ∧
  eval (loadImage (Some "wadouri:a.dcm") ex_options)
    (set_unknownImageLoader (Some (ex_loader 20)) ex_registered)
  = eval (loadImage (Some "wadouri:a.dcm") ex_options) ex_registered.
Proof.
  assert (is_Some (imageLoaders ex_registered !! scheme_of "wadouri:a.dcm"))
    as H1 by (vm_compute; eexists; reflexivity).
  split; [exact H1|].
  exact (proj1 (fallback_only_on_registry_miss "wadouri:a.dcm" ex_options
                  ex_registered (Some (ex_loader 20))
                  (or_intror (or_intror H1)))).
Defined.

Lemma registerUnknownImageLoader_returns_previous_witness :
  unknownImageLoader ex_fallback = Some (ex_loader 20) ∧
  eval (registerUnknownImageLoader (ex_loader 30)) ex_fallback
  = Return (Some (ex_loader 20)) ∧
  exec (registerUnknownImageLoader (ex_loader 20))
    (exec (registerUnknownImageLoader (ex_loader 30)) ex_fallback)
  = ex_fallback.
Proof.
  assert (unknownImageLoader ex_fallback = Some (ex_loader 20)) as H1
    by reflexivity.
  split; [exact H1|].
  destruct (registerUnknownImageLoader_returns_previous (ex_loader 30)
              ex_fallback) as (E & _ & _ & _ & H).
  split; [exact E|]. exact (proj2 (H (ex_loader 20) H1)).
Defined.

Lemma throwing_call_changes_nothing_witness :
  eval (loadAndCacheImage (Some "foo:bar") ex_options) ex_init
  = Throw NoLoaderError ∧
  ((Some "foo:bar" = None ∧ NoLoaderError = loadAndCacheImage_undefined ∧
    exec (loadAndCacheImage (Some "foo:bar") ex_options) ex_init = ex_init) ∨
   ∃ i, Some "foo:bar" = Some i ∧
        ((NoLoaderError = NoLoaderError ∧ unknownImageLoader ex_init = None ∧
          registry_read ex_init (scheme_of i) = ReadUndefined) ∨
         (NoLoaderError = InheritedPropertyError (scheme_of i) ∧
          registry_read ex_init (scheme_of i) = ReadInherited)) ∧
        exec (loadAndCacheImage (Some "foo:bar") ex_options) ex_init
        = after_cache_miss i ex_init) ∧
  eval (loadImage (Some "constructor:x") ex_options) ex_fallback
  = Throw (InheritedPropertyError "constructor") ∧
  ((Some "constructor:x" = None ∧
    InheritedPropertyError "constructor" = loadImage_undefined ∧
    exec (loadImage (Some "constructor:x") ex_options) ex_fallback
    = ex_fallback) ∨
   ∃ i, Some "constructor:x" = Some i ∧
        ((InheritedPropertyError "constructor" = NoLoaderError ∧
          unknownImageLoader ex_fallback = None ∧
          registry_read ex_fallback (scheme_of i) = ReadUndefined) ∨
         (InheritedPropertyError "constructor"
          = InheritedPropertyError (scheme_of i) ∧
          registry_read ex_fallback (scheme_of i) = ReadInherited)) ∧
        exec (loadImage (Some "constructor:x") ex_options) ex_fallback
        = after_cache_miss i ex_fallback).
Proof.
  assert (eval (loadAndCacheImage (Some "foo:bar") ex_options) ex_init
          = Throw NoLoaderError) as H1 by (vm_compute; reflexivity).
  assert (eval (loadImage (Some "constructor:x") ex_options) ex_fallback
          = Throw (InheritedPropertyError "constructor")) as H2
    by (vm_compute; reflexivity).
  split; [exact H1|]. split; [|split; [exact H2|]].
  - exact (proj2 (throwing_call_changes_nothing (Some "foo:bar") ex_options
                    ex_init NoLoaderError) H1).
  - exact (proj1 (throwing_call_changes_nothing (Some "constructor:x")
                    ex_options ex_fallback
                    (InheritedPropertyError "constructor")) H2).
Defined.

Lemma repeated_loads_witness :
  reaches_dispatch "wadouri:a.dcm" ex_registered ∧
  imageLoaders ex_registered !! scheme_of "wadouri:a.dcm"
  = Some (ex_loader 10) ∧
  List.filter is_loader_call
    (calls (api_run (replicate 3 (DoLoadImage (Some "wadouri:a.dcm")
                                    ex_options)) ex_registered))
  = List.filter is_loader_call (calls ex_registered)
    ++ replicate 3 (InvokeLoader (scheme_of "wadouri:a.dcm") "wadouri:a.dcm"
                      (Some ex_options)) ∧
  List.filter is_loader_call
    (calls (api_run (replicate 4 (DoLoadAndCacheImage (Some "wadouri:a.dcm")
                                    ex_options)) ex_registered))
  = List.filter is_loader_call (calls ex_registered)
    ++ [InvokeLoader (scheme_of "wadouri:a.dcm") "wadouri:a.dcm"
          (Some ex_options)].
Proof.
  assert (reaches_dispatch "wadouri:a.dcm" ex_registered) as H1
    by (vm_compute; split; [reflexivity|exact I]).
  assert (imageLoaders ex_registered !! scheme_of "wadouri:a.dcm"
          = Some (ex_loader 10)) as H2 by (vm_compute; reflexivity).
  split; [exact H1|]. split; [exact H2|].
  exact (repeated_loads "wadouri:a.dcm" ex_options ex_registered
           (ex_loader 10) 3 H1 H2).
Defined.

Lemma cached_load_object_is_kept_witness :
  imageCache (cache ex_cached) !! "wadouri:a.dcm"
  = Some {| promise := 10; cancel := None |} ∧
  imageLoaders (api_run ex_run ex_cached) !! "wadouri" = Some (ex_loader 30) ∧
  eval (loadImage (Some "wadouri:a.dcm") ex_options) (api_run ex_run ex_cached)
  = Return 10.
Proof.
  assert (imageCache (cache ex_cached) !! "wadouri:a.dcm"
          = Some {| promise := 10; cancel := None |}) as H1
    by (vm_compute; reflexivity).
  split; [exact H1|]. split; [vm_compute; reflexivity|].
  exact (proj1 (proj2 (cached_load_object_is_kept "wadouri:a.dcm" _ ex_cached
                         ex_run ex_options H1))).
Defined.

Lemma handlers_stay_accounted_witness :
  handlers_accounted ex_init ∧
  handlers_accounted (api_run ex_run ex_init) ∧
  length (events (api_run ex_run ex_init))
  ≤ scheme_dispatches (api_run ex_run ex_init).
Proof.
  assert (handlers_accounted ex_init) as H1 by (vm_compute; reflexivity).
  split; [exact H1|]. exact (handlers_stay_accounted ex_init ex_run H1).
Defined.

Lemma regex_dcm_test_spec_witness :
  regex_dcm_test "B.DCM" = true ∧
  ∃ pre a b c, "B.DCM" = pre +:+ String a (String b (String c "")) ∧
    (a = "d" ∨ a = "D")%char ∧ (b = "c" ∨ b = "C")%char ∧
    (c = "m" ∨ c = "M")%char.
Proof.
  split; [reflexivity|].
  exact (proj1 (regex_dcm_test_spec "B.DCM") eq_refl).
Defined.

Lemma loadImageFromLocalFiles_fulfilled_witness :
  Forall (λ imageId, wadouri_loadImage (ex_host [] true) imageId = None)
    (fst (collect_imageIds (ex_host [] true) ex_files ex_world)) ∧
  fst (loadImageFromLocalFiles (ex_host [] true) ex_files ex_world)
  = Return ["dicomfile:0"; "dicomfile:1"; "dicomfile:2"] ∧
  List.filter is_dcm_file ex_files
  = [ {| name := "a.dcm"; blob := 1 |}; {| name := "B.DCM"; blob := 3 |};
      {| name := "scandcm"; blob := 4 |} ].
Proof.
  assert (Forall (λ imageId,
                    wadouri_loadImage (ex_host [] true) imageId = None)
            (fst (collect_imageIds (ex_host [] true) ex_files ex_world)))
    as H1 by (vm_compute; repeat constructor).
  split; [exact H1|]. split; [|reflexivity].
  exact (proj1 (loadImageFromLocalFiles_fulfilled (ex_host [] true) ex_files
                  ex_world H1 eq_refl eq_refl)).
Defined.

Lemma loadImageFromLocalFiles_rejected_load_witness :
  fst (collect_imageIds (ex_host ["dicomfile:1"] true) ex_files ex_world)
  = ["dicomfile:0"] ++ "dicomfile:1" :: ["dicomfile:2"] ∧
  fst (loadImageFromLocalFiles (ex_host ["dicomfile:1"] true) ex_files
         ex_world)
  = Throw (JsError "load failed") ∧
  trace (snd (loadImageFromLocalFiles (ex_host ["dicomfile:1"] true)
                ex_files ex_world))
  = trace ex_world ++ (FileManagerAdd <$> List.filter is_dcm_file ex_files)
    ++ (WadouriLoadImage <$> ["dicomfile:0"] ++ ["dicomfile:1"]).
Proof.
  assert (fst (collect_imageIds (ex_host ["dicomfile:1"] true) ex_files
                 ex_world)
          = ["dicomfile:0"] ++ "dicomfile:1" :: ["dicomfile:2"]) as H1
    by (vm_compute; reflexivity).
  assert (Forall (λ imageId,
                    wadouri_loadImage (ex_host ["dicomfile:1"] true) imageId
                    = None) ["dicomfile:0"]) as H2
    by (repeat constructor).
  split; [exact H1|].
  exact (loadImageFromLocalFiles_rejected_load (ex_host ["dicomfile:1"] true)
           ex_files ex_world ["dicomfile:0"] "dicomfile:1" ["dicomfile:2"]
           (JsError "load failed") H1 H2 eq_refl).
Defined.

Lemma loadImageFromLocalFiles_display_failure_witness :
  has_content (ex_host [] false) = false ∧
  fst (loadImageFromLocalFiles (ex_host [] false) ex_files ex_world)
  = Throw TypeError_null.
Proof.
  assert (Forall (λ imageId,
                    wadouri_loadImage (ex_host [] false) imageId = None)
            (fst (collect_imageIds (ex_host [] false) ex_files ex_world)))
    as H1 by (vm_compute; repeat constructor).
  split; [reflexivity|].
  exact (proj1 (proj1 (loadImageFromLocalFiles_display_failure
                         (ex_host [] false) ex_files ex_world H1) eq_refl)).
Defined.

Lemma loadImageFromLocalFiles_nothing_selected_witness :
  Forall (λ file, regex_dcm_test (name file) = false)
    [ {| name := "notes.txt"; blob := 2 |} ] ∧
  loadImageFromLocalFiles (ex_host [] true)
    [ {| name := "notes.txt"; blob := 2 |} ] ex_world
  = (Return [], {| fileManager := fileManager ex_world;
                   trace := trace ex_world ++ loadByStack_calls [] |}).
Proof.
  assert (Forall (λ file, regex_dcm_test (name file) = false)
            [ {| name := "notes.txt"; blob := 2 |} ]) as H1
    by (repeat constructor).
  split; [exact H1|].
  exact (loadImageFromLocalFiles_nothing_selected (ex_host [] true) _
           ex_world H1 eq_refl eq_refl).
Defined.

Lemma mouseDownActivate_guards_witness :
  let tool := {| toolName := "Length"; has_addNewMeasurement := true |} in
  let state := {| isToolLocked := false; isMultiPartToolActive := false |} in
  AddNewMeasurement tool 7 "mouse"
  ∈ mouseDownActivate (λ _ : nat, Some tool) state 7.
Proof.
  cbn zeta.
  apply (proj1 (mouseDownActivate_guards
                  (λ _ : nat, Some {| toolName := "Length";
                                      has_addNewMeasurement := true |})
                  {| isToolLocked := false; isMultiPartToolActive := false |}
                  7)).
  repeat split; reflexivity.
Defined.

Lemma setupUI_outcome_witness :
  getElementById "content" ex_document
  = Some (Elem "div" (Some "content") [] [Elem "p" None [] []]) ∧
  ∃ selectButton,
    setupUI ex_document
    = (Return tt, appendChild_at "content" form ex_document,
       [(selectButton, "change")]) ∧
    element_id selectButton = Some "selectFileId" ∧
    getElementById "content" (appendChild_at "content" form ex_document)
    = Some (Elem "div" (Some "content") [] ([Elem "p" None [] []] ++ [form])).
Proof.
  assert (getElementById "content" ex_document
          = Some (Elem "div" (Some "content") [] [Elem "p" None [] []]))
    as H1 by reflexivity.
  split; [exact H1|].
  exact (proj1 (proj2 (setupUI_outcome ex_document)) _ _ _ _ H1).
Defined.

Lemma setupUI_listens_on_new_input_witness :
  is_Some (getElementById "content" ex_document) ∧
  getElementById "selectFileId" ex_document = None ∧
  setupUI ex_document
  = (Return tt, appendChild_at "content" form ex_document,
     [(formInput, "change")]).
Proof.
  assert (is_Some (getElementById "content" ex_document)) as H1
    by (eexists; reflexivity).
  split; [exact H1|]. split; [reflexivity|].
  exact (setupUI_listens_on_new_input ex_document H1 eq_refl).
Defined.
